(** * Signal-driven position simulation: the two back-test engines

    A shallow embedding of [flexible_backtest.py] (the engine parameterised
    by a policy table) and of [btc_trading_with_backtest.py] (the engine with
    the count-based policy wired in), with the properties of the
    specification stated over them.

    Conventions of the embedding.
    - A Python [str] is the list of its code points ([pystr]).
    - A Python [float] is a rational number of [Q]: arithmetic is exact, and
      a division whose divisor is zero raises [ZeroDivisionError].
    - A [dict] is a [gmap], a [set]/[frozenset] a [gset].
    - An exception is a value of [exn]; code that may raise returns a
      [result]. *)

From Stdlib Require Import QArith Qfield Lqa Ascii String.
From stdpp Require Import gmap strings list fin_maps pretty.

Local Close Scope Q_scope.
Local Open Scope list_scope.

(** ** Python strings *)

Definition pystr : Type := list N.

(** An ASCII literal as a Python string. *)
Definition str (s : string) : pystr := N_of_ascii <$> list_ascii_of_string s.

(** [a.startswith(pat)] and [pat in s]. *)
Fixpoint starts_with (pat s : pystr) : bool :=
  match pat, s with
  | [], _ => true
  | _ :: _, [] => false
  | a :: pat', b :: s' => if decide (a = b) then starts_with pat' s' else false
  end.

Fixpoint contains (pat s : pystr) : bool :=
  starts_with pat s ||
  match s with
  | [] => false
  | _ :: s' => contains pat s'
  end.

(** [str.isspace] on one code point (the white-space table of CPython). *)
Definition is_space (c : N) : bool :=
  ((0x9 <=? c) && (c <=? 0xD) || (0x1C <=? c) && (c <=? 0x20) ||
   (c =? 0x85) || (c =? 0xA0) || (c =? 0x1680) ||
   (0x2000 <=? c) && (c <=? 0x200A) || (c =? 0x2028) || (c =? 0x2029) ||
   (c =? 0x202F) || (c =? 0x205F) || (c =? 0x3000))%N.

Fixpoint lstrip (s : pystr) : pystr :=
  match s with
  | [] => []
  | c :: t => if is_space c then lstrip t else s
  end.

Fixpoint rstrip (s : pystr) : pystr :=
  match s with
  | [] => []
  | c :: t =>
      match rstrip t with
      | [] => if is_space c then [] else [c]
      | t' => c :: t'
      end
  end.

(** [s.strip()] *)
Definition strip (s : pystr) : pystr := rstrip (lstrip s).

(** [sep.join(l)] *)
Fixpoint join (sep : pystr) (l : list pystr) : pystr :=
  match l with
  | [] => []
  | [x] => x
  | x :: rest => x ++ sep ++ join sep rest
  end.

(** The order of [str] values: lexicographic on code points. *)
Fixpoint str_leb (a b : pystr) : bool :=
  match a, b with
  | [], _ => true
  | _ :: _, [] => false
  | x :: a', y :: b' =>
      if (x <? y)%N then true else if (y <? x)%N then false else str_leb a' b'
  end.

Fixpoint insert_sorted (x : pystr) (l : list pystr) : list pystr :=
  match l with
  | [] => [x]
  | y :: l' => if str_leb x y then x :: l else y :: insert_sorted x l'
  end.

(** [sorted(s)] for a set of strings. *)
Definition sorted (s : gset pystr) : list pystr :=
  foldr insert_sorted [] (elements s).

(** ** Exceptions *)

Inductive exn : Type := ValueError | KeyError | ZeroDivisionError.

Inductive result (A : Type) : Type :=
| OK (a : A)
| Raise (e : exn).
Arguments OK {A} a.
Arguments Raise {A} e.

#[global] Instance result_ret : MRet result := fun A a => OK a.
#[global] Instance result_bind : MBind result := fun A B k r =>
  match r with
  | OK a => k a
  | Raise e => Raise e
  end.

(** [a / b] on floats. *)
Definition pydiv (a b : Q) : result Q :=
  if Qeq_bool b 0 then Raise ZeroDivisionError else OK (a / b)%Q.

(** [a > b] on floats. *)
Definition Qgtb (a b : Q) : bool := negb (Qle_bool a b).

(** ** Constants of the two scripts *)

Definition tempeture_index : pystr := str "tempeture_index".
Definition ma_120 : pystr := str "120_ma".
Definition ADX : pystr := str "ADX".

(** 空仓, 现货, 一倍合约, 两倍合约 *)
Definition FLAT : pystr := [0x7A7A; 0x4ED3]%N.
Definition SPOT : pystr := [0x73B0; 0x8D27]%N.
Definition LEV1 : pystr := [0x4E00; 0x500D; 0x5408; 0x7EA6]%N.
Definition LEV2 : pystr := [0x4E24; 0x500D; 0x5408; 0x7EA6]%N.

(** 进场, 出场 *)
Definition ENTER : pystr := [0x8FDB; 0x573A]%N.
Definition EXIT : pystr := [0x51FA; 0x573A]%N.

Definition SIGNALS : gset pystr := {[tempeture_index; ma_120; ADX]}.
Definition POSITIONS : gset pystr := {[FLAT; SPOT; LEV1; LEV2]}.

(** The set literal of lines 101, 124 and 133 of flexible_backtest.py. *)
Definition CONTRACTS : gset pystr := {[LEV1; LEV2]}.

(** ** flexible_backtest.py: normalize_signal *)

Definition normalize_signal (sig : pystr) : pystr :=
  if contains tempeture_index sig then tempeture_index
  else if contains ma_120 sig then ma_120
  else if contains ADX sig then ADX
  else strip sig.

(** ** flexible_backtest.py: policy tables *)

(** The values a policy entry holds: a string or a number. *)
Inductive pyval : Type :=
| VStr (s : pystr)
| VNum (x : Q).

Definition KEY_POSITION : pystr := str "position".
Definition KEY_RATIO : pystr := str "ratio".

Abbreviation cfg := (gmap pystr pyval).
Abbreviation policy_table := (gmap (gset pystr) (gmap pystr pyval)).

Definition position_cfg (p : pystr) : cfg := {[ KEY_POSITION := VStr p ]}.

Definition DEFAULT_POLICY : policy_table :=
  <[ ∅ := position_cfg FLAT ]> $
  <[ {[tempeture_index]} := position_cfg SPOT ]> $
  <[ {[ma_120]} := position_cfg SPOT ]> $
  <[ {[ADX]} := position_cfg SPOT ]> $
  <[ {[tempeture_index; ma_120]} := position_cfg LEV1 ]> $
  <[ {[tempeture_index; ADX]} := position_cfg LEV1 ]> $
  <[ {[ma_120; ADX]} := position_cfg LEV1 ]> $
  <[ {[tempeture_index; ma_120; ADX]} := position_cfg LEV2 ]> ∅.

(** ** Rows of the input table and of the output table *)

(** The columns of a row the engines read: 价格 USD (already parsed to a
    number), 类型 and 信号. *)
Record row : Type := Row {
  row_price : Q;
  row_type : pystr;
  row_signal : pystr
}.

(** The five columns the engines append to a row: 当前仓位类型, 持有BTC数量,
    当前总资产USD, 当前持有信号, 备注. *)
Record snapshot : Type := Snapshot {
  snap_position : pystr;
  snap_btc : Q;
  snap_total : Q;
  snap_signals : pystr;
  snap_remark : pystr
}.

(** ** flexible_backtest.py: run_backtest *)

(** The state variables of lines 81-85. *)
Record state : Type := State {
  usd : Q;
  btc : Q;
  position : pystr;
  active_signals : gset pystr;
  last_price : option Q
}.

Definition init_state (initial_usd : Q) : state :=
  {| usd := initial_usd; btc := 0; position := FLAT;
     active_signals := ∅; last_price := None |}.

Definition set_btc (st : state) (b : Q) : state :=
  {| usd := usd st; btc := b; position := position st;
     active_signals := active_signals st; last_price := last_price st |}.

(** step1, lines 95-98: settle the floating profit of a held contract. *)
Definition settle (st : state) (price : Q) : result state :=
  match decide (position st = LEV1), last_price st with
  | left _, Some lp =>
      r ← pydiv (price - lp)%Q lp;
      mret (set_btc st (btc st + r * btc st)%Q)
  | _, _ =>
      match decide (position st = LEV2), last_price st with
      | left _, Some lp =>
          r ← pydiv (2 * (price - lp))%Q lp;
          mret (set_btc st (btc st + r * btc st)%Q)
      | _, _ => mret st
      end
  end.

(** Lines 101-104. *)
Definition update_last_price (st : state) (price : Q) : state :=
  {| usd := usd st; btc := btc st; position := position st;
     active_signals := active_signals st;
     last_price := if decide (position st ∈ CONTRACTS) then Some price else None |}.

(** step2, lines 107-110, on the set. *)
Definition toggle_signal (active : gset pystr) (action_type sig : pystr) : gset pystr :=
  if decide (action_type = ENTER) then active ∪ {[sig]}
  else if decide (action_type = EXIT) then active ∖ {[sig]}
  else active.

Definition update_signals (st : state) (action_type sig : pystr) : state :=
  {| usd := usd st; btc := btc st; position := position st;
     active_signals := toggle_signal (active_signals st) action_type sig;
     last_price := last_price st |}.

(** Lines 112-116: the policy lookup, the default and the check. A [dict] is
    true when it is not empty. *)
Definition lookup_target (policy : policy_table) (st : state) : result pyval :=
  match policy !! active_signals st with
  | Some target_cfg =>
      if decide (size target_cfg = 0%nat) then mret (VStr (position st))
      else match target_cfg !! KEY_POSITION with
           | Some v => mret v
           | None => Raise KeyError
           end
  | None => mret (VStr (position st))
  end.

Definition check_position (v : pyval) : result pystr :=
  match v with
  | VStr p => if decide (p ∈ POSITIONS) then mret p else Raise ValueError
  | VNum _ => Raise ValueError
  end.

Definition resolve_target (policy : policy_table) (st : state) : result pystr :=
  v ← lookup_target policy st; check_position v.

(** Lines 121-127: close the old position into USD. *)
Definition liquidate (st : state) (price : Q) : state :=
  if decide (position st = SPOT) then
    {| usd := (btc st * price)%Q; btc := 0; position := position st;
       active_signals := active_signals st; last_price := last_price st |}
  else if decide (position st ∈ CONTRACTS) then
    {| usd := (btc st * price)%Q; btc := 0; position := position st;
       active_signals := active_signals st; last_price := last_price st |}
  else st.

(** Lines 130-137: open the new position. *)
Definition reopen (st : state) (target_position : pystr) (price : Q) : result state :=
  if decide (target_position = SPOT) then
    b ← pydiv (usd st) price;
    mret {| usd := 0; btc := b; position := position st;
            active_signals := active_signals st; last_price := last_price st |}
  else if decide (target_position ∈ CONTRACTS) then
    b ← pydiv (usd st) price;
    mret {| usd := 0; btc := b; position := position st;
            active_signals := active_signals st; last_price := Some price |}
  else mret st.

Definition set_position (st : state) (p : pystr) : state :=
  {| usd := usd st; btc := btc st; position := p;
     active_signals := active_signals st; last_price := last_price st |}.

(** 换仓→ *)
Definition REMARK_PREFIX : pystr := [0x6362; 0x4ED3; 0x2192]%N.

(** step3, lines 119-139: the switch, returning the new state and the remark. *)
Definition switch_position (st : state) (target_position : pystr) (price : Q)
  : result (state * pystr) :=
  st' ← reopen (liquidate st price) target_position price;
  mret (set_position st' target_position, REMARK_PREFIX ++ target_position).

(** Line 142. *)
Definition total_assets (st : state) (price : Q) : Q :=
  if Qgtb (usd st) 0 then usd st else (btc st * price)%Q.

(** step4, lines 142-147. *)
Definition emit (st : state) (price : Q) (remark : pystr) : snapshot :=
  {| snap_position := position st;
     snap_btc := btc st;
     snap_total := total_assets st price;
     snap_signals := join (str ",") (sorted (active_signals st));
     snap_remark := remark |}.

(** Lines 95-116: everything of one iteration that precedes the switch. *)
Definition before_switch (policy : policy_table) (st : state) (r : row)
  : result (state * pystr) :=
  st1 ← settle st (row_price r);
  let st2 := update_last_price st1 (row_price r) in
  let st3 := update_signals st2 (row_type r) (normalize_signal (row_signal r)) in
  target_position ← resolve_target policy st3;
  mret (st3, target_position).

(** One iteration of the loop of lines 87-147. *)
Definition process_row (policy : policy_table) (st : state) (r : row)
  : result (state * snapshot) :=
  '(st3, target_position) ← before_switch policy st r;
  '(st4, remark) ← (if decide (target_position ≠ position st3)
                    then switch_position st3 target_position (row_price r)
                    else mret (st3, []));
  mret (st4, emit st4 (row_price r) remark).

(** The loop: the final state and the rows written so far. An exception
    leaves the loop, and no table is returned. *)
Fixpoint run_rows (policy : policy_table) (st : state) (rows : list row)
  : result (state * list snapshot) :=
  match rows with
  | [] => mret (st, [])
  | r :: rest =>
      '(st', snap) ← process_row policy st r;
      '(st'', snaps) ← run_rows policy st' rest;
      mret (st'', snap :: snaps)
  end.

Definition run_backtest (policy : policy_table) (rows : list row) (initial_usd : Q)
  : result (list snapshot) :=
  '(_, snaps) ← run_rows policy (init_state initial_usd) rows;
  mret snaps.

(** The sets of active signals the loop looks up, one per row: the set of
    line 112 depends on the rows alone, not on the account. *)
Fixpoint signal_trace (active : gset pystr) (rows : list row) : list (gset pystr) :=
  match rows with
  | [] => []
  | r :: rest =>
      let active' := toggle_signal active (row_type r)
                       (normalize_signal (row_signal r)) in
      active' :: signal_trace active' rest
  end.

(** ** btc_trading_with_backtest.py: the engine with the count-based policy *)

Module Fixed.

(** Lines 30-39. *)
Definition normalize_signal (sig : pystr) : pystr :=
  if contains (str "tempeture_index") sig then str "tempeture_index"
  else if contains (str "120_ma") sig then str "120_ma"
  else if contains (str "ADX") sig then str "ADX"
  else strip sig.

(** The state variables of lines 21-25. *)
Record state : Type := State {
  current_usd : Q;
  current_btc : Q;
  current_position : pystr;
  active_signals : gset pystr;
  last_price : option Q
}.

Definition initial_usd : Q := 1000.

Definition init_state : state :=
  {| current_usd := initial_usd; current_btc := 0; current_position := FLAT;
     active_signals := ∅; last_price := None |}.

(** 切换为现货( , signal) , 切换为一倍合约, 切换为两倍合约, 全部平仓为空仓 *)
Definition REMARK_SPOT (n_signal : nat) : pystr :=
  [0x5207; 0x6362; 0x4E3A; 0x73B0; 0x8D27; 0x28]%N
    ++ str (pretty n_signal) ++ str " signal)".
Definition REMARK_LEV1 : pystr :=
  [0x5207; 0x6362; 0x4E3A; 0x4E00; 0x500D; 0x5408; 0x7EA6]%N.
Definition REMARK_LEV2 : pystr :=
  [0x5207; 0x6362; 0x4E3A; 0x4E24; 0x500D; 0x5408; 0x7EA6]%N.
Definition REMARK_FLAT : pystr :=
  [0x5168; 0x90E8; 0x5E73; 0x4ED3; 0x4E3A; 0x7A7A; 0x4ED3]%N.

(** Lines 51-54. *)
Definition settle (st : state) (price : Q) : result state :=
  match decide (current_position st = LEV1), last_price st with
  | left _, Some lp =>
      r ← pydiv (price - lp)%Q lp;
      mret {| current_usd := current_usd st;
              current_btc := (current_btc st + r * current_btc st)%Q;
              current_position := current_position st;
              active_signals := active_signals st; last_price := last_price st |}
  | _, _ =>
      match decide (current_position st = LEV2), last_price st with
      | left _, Some lp =>
          r ← pydiv (2 * (price - lp))%Q lp;
          mret {| current_usd := current_usd st;
                  current_btc := (current_btc st + r * current_btc st)%Q;
                  current_position := current_position st;
                  active_signals := active_signals st; last_price := last_price st |}
      | _, _ => mret st
      end
  end.

(** Lines 58-59: the price is recorded for a spot holding too. *)
Definition update_last_price (st : state) (price : Q) : state :=
  {| current_usd := current_usd st; current_btc := current_btc st;
     current_position := current_position st;
     active_signals := active_signals st;
     last_price := if decide (current_position st ≠ FLAT) then Some price
                   else last_price st |}.

(** Lines 62-65. *)
Definition update_signals (st : state) (type_ signal : pystr) : state :=
  {| current_usd := current_usd st; current_btc := current_btc st;
     current_position := current_position st;
     active_signals :=
       if decide (type_ = ENTER) then active_signals st ∪ {[signal]}
       else if decide (type_ = EXIT) then active_signals st ∖ {[signal]}
       else active_signals st;
     last_price := last_price st |}.

(** Lines 70-75. *)
Definition target_of (n_signal : nat) : pystr :=
  if decide (n_signal = 0%nat) then FLAT
  else if decide (n_signal = 1%nat) then SPOT
  else if decide (n_signal = 2%nat) then LEV1
  else LEV2.

(** Lines 80-87. *)
Definition liquidate (st : state) (price : Q) : state :=
  if decide (current_position st = SPOT) then
    {| current_usd := (current_btc st * price)%Q; current_btc := 0;
       current_position := current_position st;
       active_signals := active_signals st; last_price := last_price st |}
  else if decide (current_position st ∈ [LEV1; LEV2]) then
    {| current_usd := (current_btc st * price)%Q; current_btc := 0;
       current_position := current_position st;
       active_signals := active_signals st; last_price := last_price st |}
  else st.

Definition opened (st : state) (b : Q) : state :=
  {| current_usd := 0; current_btc := b;
     current_position := current_position st;
     active_signals := active_signals st; last_price := last_price st |}.

(** Lines 90-103. *)
Definition reopen (st : state) (target_position : pystr) (n_signal : nat) (price : Q)
  : result (state * pystr) :=
  if decide (target_position = SPOT) then
    b ← pydiv (current_usd st) price; mret (opened st b, REMARK_SPOT n_signal)
  else if decide (target_position = LEV1) then
    b ← pydiv (current_usd st) price; mret (opened st b, REMARK_LEV1)
  else if decide (target_position = LEV2) then
    b ← pydiv (current_usd st) price; mret (opened st b, REMARK_LEV2)
  else if decide (target_position = FLAT) then mret (st, REMARK_FLAT)
  else mret (st, []).

(** Lines 105-106. *)
Definition finish_switch (st : state) (target_position : pystr) (price : Q) : state :=
  {| current_usd := current_usd st; current_btc := current_btc st;
     current_position := target_position;
     active_signals := active_signals st;
     last_price := if decide (target_position ∈ [LEV1; LEV2]) then Some price
                   else None |}.

(** Lines 109-113. *)
Definition emit (st : state) (price : Q) (remark : pystr) : snapshot :=
  {| snap_position := current_position st;
     snap_btc := current_btc st;
     snap_total := if Qgtb (current_usd st) 0 then current_usd st
                   else (current_btc st * price)%Q;
     snap_signals := join (str ",") (sorted (active_signals st));
     snap_remark := remark |}.

(** One iteration of the loop of lines 42-113. *)
Definition process_row (st : state) (r : row) : result (state * snapshot) :=
  let price := row_price r in
  st1 ← settle st price;
  let st2 := update_last_price st1 price in
  let st3 := update_signals st2 (row_type r) (normalize_signal (row_signal r)) in
  let n_signal := size (active_signals st3) in
  let target_position := target_of n_signal in
  '(st4, remark) ← (if decide (target_position ≠ current_position st3) then
                      '(st', remark) ← reopen (liquidate st3 price)
                                         target_position n_signal price;
                      mret (finish_switch st' target_position price, remark)
                    else mret (st3, []));
  mret (st4, emit st4 price remark).

Fixpoint run_rows (st : state) (rows : list row) : result (state * list snapshot) :=
  match rows with
  | [] => mret (st, [])
  | r :: rest =>
      '(st', snap) ← process_row st r;
      '(st'', snaps) ← run_rows st' rest;
      mret (st'', snap :: snaps)
  end.

(** The script: the table it writes for the rows it read. *)
Definition run (rows : list row) : result (list snapshot) :=
  '(_, snaps) ← run_rows init_state rows;
  mret snaps.

End Fixed.

(** The columns of a row of the output other than the remark. *)
Definition columns (s : snapshot) : pystr * Q * Q * pystr :=
  (snap_position s, snap_btc s, snap_total s, snap_signals s).

(** ** Definitions the statements use *)

Definition infix (pat s : pystr) : Prop := ∃ k1 k2, s = k1 ++ pat ++ k2.

(** The scenario of the specification: one signal X mapped to the 1x contract. *)
Definition scenario_X : pystr := str "X".

Definition scenario_Y : pystr := str "Y".

Definition NO_ACTION : pystr := [].

Definition policy_B : policy_table := {[ {[scenario_X]} := position_cfg LEV1 ]}.

Definition rows_B : list row :=
  [Row 100 ENTER scenario_X; Row 110 NO_ACTION scenario_X].

(** What the switch leaves in the account, field by field. *)
Definition liquidated_usd (st : state) (price : Q) : Q :=
  if decide (position st = FLAT) then usd st else (btc st * price)%Q.

Definition liquidated_btc (st : state) : Q :=
  if decide (position st = FLAT) then btc st else 0.

(** The state on which the target is resolved (lines 101-110 after step 1). *)
Definition prepared (st1 : state) (r : row) : state :=
  update_signals (update_last_price st1 (row_price r)) (row_type r)
    (normalize_signal (row_signal r)).

(** What holds of the account after any number of rows with non-zero
    prices: the position is one of the four, a recorded last price is not
    zero, a flat account holds no BTC and any other position no USD. *)
Definition well_formed (st : state) : Prop :=
  position st ∈ POSITIONS ∧
  (∀ lp, last_price st = Some lp → ¬ (lp == 0)%Q) ∧
  (position st = FLAT → (btc st == 0)%Q) ∧
  (position st ≠ FLAT → (usd st == 0)%Q).

Definition policy_C : policy_table :=
  <[ ∅ := position_cfg FLAT ]> {[ {[scenario_X]} := position_cfg SPOT ]}.

Definition rows_C : list row :=
  [Row 100 ENTER scenario_X; Row 110 ENTER scenario_Y].

Definition policy_lev (p : pystr) : policy_table := {[ {[scenario_X]} := position_cfg p ]}.

Definition rows_path : list row :=
  [Row 100 ENTER scenario_X; Row 110 NO_ACTION scenario_X;
   Row 121 NO_ACTION scenario_X].

(** The settlement of a 2x contract at a price of at most half the last
    price: the quantity it leaves is zero or negative. *)
Definition wiped_out (st : state) (price : Q) : bool :=
  match decide (position st = LEV2), last_price st with
  | left _, Some lp => Qle_bool (2 * price) lp
  | _, _ => false
  end.

(** No row of the run settles a 2x contract at such a price. *)
Fixpoint survives (policy : policy_table) (st : state) (rows : list row) : bool :=
  match rows with
  | [] => true
  | r :: rest =>
      negb (wiped_out st (row_price r)) &&
      match process_row policy st r with
      | OK (st', _) => survives policy st' rest
      | Raise _ => true
      end
  end.

(** A flat account holds USD only, any other position BTC only, and what is
    held is positive. *)
Definition solvent (st : state) : Prop :=
  position st ∈ POSITIONS ∧
  (∀ lp, last_price st = Some lp → (0 < lp)%Q) ∧
  (position st = FLAT → (0 < usd st)%Q ∧ (btc st == 0)%Q) ∧
  (position st ≠ FLAT → (usd st == 0)%Q ∧ (0 < btc st)%Q).

Definition policy_W : policy_table :=
  <[ ∅ := position_cfg FLAT ]> {[ {[scenario_X]} := position_cfg LEV2 ]}.

Definition policy_D : policy_table :=
  <[ ∅ := position_cfg FLAT ]> {[ {[scenario_X]} := position_cfg LEV1 ]}.

Definition rows_D : list row :=
  [Row 100 ENTER scenario_X; Row 110 EXIT scenario_X].

(** The entry the row looks up is usable: no entry, an empty entry, or an
    entry whose position is one of the four names. *)
Definition entry_ok (policy : policy_table) (active : gset pystr) : Prop :=
  match policy !! active with
  | None => True
  | Some target_cfg =>
      size target_cfg = 0%nat ∨
      ∃ p, target_cfg !! KEY_POSITION = Some (VStr p) ∧ p ∈ POSITIONS
  end.

(** The entry maps to a position value outside the four names. *)
Definition entry_invalid (policy : policy_table) (active : gset pystr) : Prop :=
  ∃ target_cfg v,
    policy !! active = Some target_cfg ∧ target_cfg !! KEY_POSITION = Some v ∧
    ∀ p, v = VStr p → p ∉ POSITIONS.

(** 错仓: a position name that is none of the four. *)
Definition BOGUS : pystr := [0x9519; 0x4ED3]%N.

Definition policy_bad : policy_table :=
  <[ ∅ := position_cfg FLAT ]> {[ {[scenario_X]} := position_cfg BOGUS ]}.

(** flexible_app.py, line 71: the entry the panel builds for a combination. *)
Definition app_cfg (sel : pystr) (ratio_val : Q) : cfg :=
  <[ KEY_POSITION := VStr sel ]> {[ KEY_RATIO := VNum ratio_val ]}.

(** Two policy tables with the same keys and, for each key, the same value
    under "position"; what else the entries hold is free. *)
Definition same_positions (policy1 policy2 : policy_table) : Prop :=
  ∀ key : gset pystr,
    match policy1 !! key, policy2 !! key with
    | Some c1, Some c2 =>
        is_Some (c1 !! KEY_POSITION) ∧ c1 !! KEY_POSITION = c2 !! KEY_POSITION
    | None, None => True
    | _, _ => False
    end.

Definition policy_half : policy_table :=
  <[ ∅ := app_cfg FLAT 0 ]> {[ {[scenario_X]} := app_cfg SPOT (1 # 2) ]}.

Definition policy_full : policy_table :=
  <[ ∅ := app_cfg FLAT 1 ]> {[ {[scenario_X]} := app_cfg SPOT 1 ]}.

(** The accounts of the two engines after the same rows: the same holdings,
    position and signals, the position the count of signals gives, and the
    same last price while a contract is held (the script with the built-in
    policy also records a last price for spot). *)
Definition corresponds (f : Fixed.state) (s : state) : Prop :=
  Fixed.current_usd f = usd s ∧ Fixed.current_btc f = btc s ∧
  Fixed.current_position f = position s ∧
  Fixed.active_signals f = active_signals s ∧
  active_signals s ⊆ SIGNALS ∧
  position s = Fixed.target_of (size (active_signals s)) ∧
  (position s ∈ CONTRACTS → Fixed.last_price f = last_price s) ∧
  (∀ lp, last_price s = Some lp → ¬ (lp == 0)%Q).

Definition rows_three : list row :=
  [Row 100 ENTER (str "tempeture_index cross");
   Row 110 ENTER (str "price above 120_ma");
   Row 121 ENTER (str "ADX > 25");
   Row 90 EXIT (str "ADX < 20");
   Row 95 EXIT (str "120_ma lost");
   Row 80 EXIT (str "tempeture_index low")].

(** * Properties *)

(** ** Strings *)

Lemma starts_with_prefix (pat s : pystr) :
  starts_with pat s = true ↔ pat `prefix_of` s.
Proof.
  revert s. induction pat as [|a pat IH]; intros s; simpl.
  - split; [intros _; apply prefix_nil | done].
  - destruct s as [|b s].
    + split; [done | intros [k Hk]; discriminate].
    + destruct (decide (a = b)) as [->|Hne].
      * rewrite IH. split; [apply prefix_cons | apply prefix_cons_inv_2].
      * split; [done | intros H; apply prefix_cons_inv_1 in H; done].
Qed.

Lemma contains_infix (pat s : pystr) : contains pat s = true ↔ infix pat s.
Proof.
  induction s as [|c s IH]; simpl.
  - rewrite orb_false_r, starts_with_prefix. split.
    + intros [k Hk]. exists [], k. done.
    + intros (k1 & k2 & Hk). destruct k1; [by exists k2 | discriminate].
  - rewrite orb_true_iff, starts_with_prefix, IH. split.
    + intros [[k Hk] | (k1 & k2 & Hk)].
      * exists [], k. done.
      * exists (c :: k1), k2. by rewrite Hk.
    + intros (k1 & k2 & Hk). destruct k1 as [|c' k1].
      * left. by exists k2.
      * right. exists k1, k2. simpl in Hk. congruence.
Qed.

Lemma infix_trans (a b c : pystr) : infix a b → infix b c → infix a c.
Proof.
  intros (k1 & k2 & ->) (j1 & j2 & ->).
  exists (j1 ++ k1), (k2 ++ j2). by rewrite <- !(assoc_L (++)).
Qed.

Lemma lstrip_suffix (s : pystr) : lstrip s `suffix_of` s.
Proof.
  induction s as [|c s IH]; simpl; [done |].
  destruct (is_space c); [by apply suffix_cons_r | done].
Qed.

Lemma rstrip_prefix (s : pystr) : rstrip s `prefix_of` s.
Proof.
  induction s as [|c s IH]; simpl; [done |].
  destruct (rstrip s) as [|c' t] eqn:E.
  - destruct (is_space c); [apply prefix_nil |]. apply prefix_cons, prefix_nil.
  - by apply prefix_cons.
Qed.

Lemma strip_infix (s : pystr) : infix (strip s) s.
Proof.
  unfold strip. destruct (rstrip_prefix (lstrip s)) as [k2 H2].
  destruct (lstrip_suffix s) as [k1 H1].
  exists k1, k2. by rewrite H1 at 1; rewrite H2 at 1.
Qed.

Lemma rstrip_idemp (s : pystr) : rstrip (rstrip s) = rstrip s.
Proof.
  induction s as [|c s IH]; simpl; [done |].
  destruct (rstrip s) as [|c' t] eqn:E.
  - destruct (is_space c) eqn:Ec; simpl; [done | by rewrite Ec].
  - simpl in *. by rewrite IH.
Qed.

Lemma rstrip_head (c : N) (t : pystr) :
  is_space c = false → ∃ t', rstrip (c :: t) = c :: t'.
Proof.
  intros Hc. simpl. destruct (rstrip t); rewrite ?Hc; eauto.
Qed.

Lemma lstrip_head (s : pystr) :
  lstrip s = [] ∨ ∃ c t, lstrip s = c :: t ∧ is_space c = false.
Proof.
  induction s as [|c s IH]; simpl; [by left |].
  destruct (is_space c) eqn:Ec; [done | right; eauto].
Qed.

Lemma strip_idemp (s : pystr) : strip (strip s) = strip s.
Proof.
  unfold strip. destruct (lstrip_head s) as [-> | (c & t & -> & Hc)]; [done |].
  destruct (rstrip_head c t Hc) as [t' Ht']. rewrite Ht' at 1.
  simpl lstrip. rewrite Hc, <- Ht'. apply rstrip_idemp.
Qed.

(** ** The signal normalizer *)

Lemma contains_not_infix (pat s : pystr) : contains pat s = false ↔ ¬ infix pat s.
Proof. rewrite <- contains_infix. by destruct (contains pat s). Qed.

Lemma normalize_signal_canonical (c : pystr) :
  c ∈ SIGNALS → normalize_signal c = c.
Proof.
  unfold SIGNALS. rewrite !elem_of_union, !elem_of_singleton.
  intros [[-> | ->] | ->]; reflexivity.
Qed.

Lemma normalize_signal_cases (s : pystr) :
  (infix tempeture_index s ∧ normalize_signal s = tempeture_index) ∨
  (¬ infix tempeture_index s ∧ infix ma_120 s ∧ normalize_signal s = ma_120) ∨
  (¬ infix tempeture_index s ∧ ¬ infix ma_120 s ∧ infix ADX s ∧
   normalize_signal s = ADX) ∨
  (¬ infix tempeture_index s ∧ ¬ infix ma_120 s ∧ ¬ infix ADX s ∧
   normalize_signal s = strip s).
Proof.
  unfold normalize_signal.
  destruct (contains tempeture_index s) eqn:E1.
  { left. split; [by apply contains_infix | done]. }
  apply contains_not_infix in E1.
  destruct (contains ma_120 s) eqn:E2.
  { right; left. split_and!; [done | by apply contains_infix | done]. }
  apply contains_not_infix in E2.
  destruct (contains ADX s) eqn:E3.
  { right; right; left. split_and!; [done | done | by apply contains_infix | done]. }
  apply contains_not_infix in E3.
  right; right; right. done.
Qed.

Lemma normalize_signal_idemp (s : pystr) :
  normalize_signal (normalize_signal s) = normalize_signal s.
Proof.
  destruct (normalize_signal_cases s)
    as [[_ ->] | [(_ & _ & ->) | [(_ & _ & _ & ->) | (H1 & H2 & H3 & ->)]]];
    try reflexivity.
  pose proof (strip_infix s) as Hs.
  unfold normalize_signal.
  replace (contains tempeture_index (strip s)) with false
    by (symmetry; apply contains_not_infix; eauto using infix_trans).
  replace (contains ma_120 (strip s)) with false
    by (symmetry; apply contains_not_infix; eauto using infix_trans).
  replace (contains ADX (strip s)) with false
    by (symmetry; apply contains_not_infix; eauto using infix_trans).
  apply strip_idemp.
Qed.

Lemma normalize_signal_contained (c s : pystr) :
  c ∈ SIGNALS → contains c s = true →
  normalize_signal s ∈ SIGNALS ∧
  contains (normalize_signal s) s = true ∧
  ((∀ c', c' ∈ SIGNALS → contains c' s = true → c' = c) →
   normalize_signal s = c).
Proof.
  intros Hc Hin.
  assert (HT : tempeture_index ∈ SIGNALS) by (unfold SIGNALS; set_solver).
  assert (HM : ma_120 ∈ SIGNALS) by (unfold SIGNALS; set_solver).
  assert (HA : ADX ∈ SIGNALS) by (unfold SIGNALS; set_solver).
  destruct (normalize_signal_cases s)
    as [[H' ->] | [(_ & H' & ->) | [(_ & _ & H' & ->) | (H1 & H2 & H3 & _)]]].
  - apply contains_infix in H'. auto.
  - apply contains_infix in H'. auto.
  - apply contains_infix in H'. auto.
  - exfalso. apply contains_infix in Hin.
    revert Hc. unfold SIGNALS. rewrite !elem_of_union, !elem_of_singleton.
    intros [[-> | ->] | ->]; done.
Qed.

(** C7, as the sentence reads: a raw label that contains a canonical
    identifier is not always normalized to that identifier. The label
    "120_ma tempeture_index" contains 120_ma and is normalized to
    tempeture_index, which comes first in the priority order. *)
Lemma normalize_signal_contained_counterexample :
  ∃ c s : pystr,
    c ∈ SIGNALS ∧ contains c s = true ∧ normalize_signal s ≠ c ∧
    c = ma_120 ∧ s = str "120_ma tempeture_index" ∧
    normalize_signal s = tempeture_index.
Proof.
  exists ma_120, (str "120_ma tempeture_index").
  split_and!; try reflexivity; try (vm_compute; discriminate).
Qed.

(** C7 (amended): normalize_signal checks tempeture_index, 120_ma, ADX in this
    order and returns the first one the raw label contains; when the label
    contains none it returns the stripped label; it is idempotent and the
    identity on the canonical identifiers; and a label that contains a
    canonical identifier is normalized to a canonical identifier it contains,
    which is that identifier whenever the label contains no other one. *)
Theorem normalize_signal_priority :
  (∀ s, contains tempeture_index s = true → normalize_signal s = tempeture_index) ∧
  (∀ s, contains tempeture_index s = false → contains ma_120 s = true →
        normalize_signal s = ma_120) ∧
  (∀ s, contains tempeture_index s = false → contains ma_120 s = false →
        contains ADX s = true → normalize_signal s = ADX) ∧
  (∀ s, contains tempeture_index s = false → contains ma_120 s = false →
        contains ADX s = false → normalize_signal s = strip s) ∧
  (∀ pat s, contains pat s = true ↔ ∃ k1 k2, s = k1 ++ pat ++ k2) ∧
  (∀ s, normalize_signal (normalize_signal s) = normalize_signal s) ∧
  (∀ c, c ∈ SIGNALS → normalize_signal c = c) ∧
  (∀ c s, c ∈ SIGNALS → contains c s = true →
          normalize_signal s ∈ SIGNALS ∧
          contains (normalize_signal s) s = true ∧
          ((∀ c', c' ∈ SIGNALS → contains c' s = true → c' = c) →
           normalize_signal s = c)).
Proof.
  split_and!.
  - intros s H. unfold normalize_signal. by rewrite H.
  - intros s H1 H2. unfold normalize_signal. by rewrite H1, H2.
  - intros s H1 H2 H3. unfold normalize_signal. by rewrite H1, H2, H3.
  - intros s H1 H2 H3. unfold normalize_signal. by rewrite H1, H2, H3.
  - apply contains_infix.
  - apply normalize_signal_idemp.
  - apply normalize_signal_canonical.
  - apply normalize_signal_contained.
Qed.

(** ** Arithmetic of the account *)

Lemma pydiv_ok (a b : Q) : ¬ (b == 0)%Q → pydiv a b = OK (a / b)%Q.
Proof.
  intros Hb. unfold pydiv.
  destruct (Qeq_bool b 0) eqn:E; [| done].
  apply Qeq_bool_eq in E. done.
Qed.

Lemma pydiv_zero (a b : Q) : (b == 0)%Q → pydiv a b = Raise ZeroDivisionError.
Proof.
  intros Hb. unfold pydiv. apply Qeq_bool_iff in Hb. by rewrite Hb.
Qed.

Lemma Qgtb_true (a b : Q) : Qgtb a b = true ↔ (b < a)%Q.
Proof.
  unfold Qgtb. rewrite negb_true_iff. split.
  - intros E. apply Qnot_le_lt. intros H. apply Qle_bool_iff in H. congruence.
  - intros H. destruct (Qle_bool a b) eqn:E; [| done].
    apply Qle_bool_iff in E. exfalso. by apply (Qlt_not_le b a).
Qed.

Lemma Qgtb_false (a b : Q) : Qgtb a b = false ↔ (a <= b)%Q.
Proof.
  unfold Qgtb. rewrite negb_false_iff. apply Qle_bool_iff.
Qed.

(** The four position names are distinct. *)
Lemma positions_distinct :
  FLAT ≠ SPOT ∧ FLAT ≠ LEV1 ∧ FLAT ≠ LEV2 ∧ SPOT ≠ LEV1 ∧ SPOT ≠ LEV2 ∧ LEV1 ≠ LEV2.
Proof. split_and!; discriminate. Qed.

Lemma elem_of_POSITIONS (p : pystr) :
  p ∈ POSITIONS ↔ p = FLAT ∨ p = SPOT ∨ p = LEV1 ∨ p = LEV2.
Proof.
  unfold POSITIONS. rewrite !elem_of_union, !elem_of_singleton. tauto.
Qed.

Lemma elem_of_CONTRACTS (p : pystr) : p ∈ CONTRACTS ↔ p = LEV1 ∨ p = LEV2.
Proof. unfold CONTRACTS. rewrite elem_of_union, !elem_of_singleton. tauto. Qed.

(** ** Step 1: the settlement *)

Lemma settle_lev1 (st : state) (price lp : Q) :
  position st = LEV1 → last_price st = Some lp → ¬ (lp == 0)%Q →
  settle st price = OK (set_btc st (btc st + (price - lp) / lp * btc st)%Q).
Proof.
  intros Hp Hl Hz. unfold settle. rewrite Hl.
  destruct (decide (position st = LEV1)); [| done].
  by rewrite pydiv_ok.
Qed.

Lemma settle_lev2 (st : state) (price lp : Q) :
  position st = LEV2 → last_price st = Some lp → ¬ (lp == 0)%Q →
  settle st price = OK (set_btc st (btc st + 2 * (price - lp) / lp * btc st)%Q).
Proof.
  intros Hp Hl Hz. unfold settle. rewrite Hl.
  destruct (decide (position st = LEV1)) as [E|_].
  { rewrite Hp in E. discriminate. }
  destruct (decide (position st = LEV2)); [| done].
  by rewrite pydiv_ok.
Qed.

Lemma settle_other (st : state) (price : Q) :
  position st ∉ CONTRACTS ∨ last_price st = None → settle st price = OK st.
Proof.
  rewrite elem_of_CONTRACTS. intros H. unfold settle.
  destruct (decide (position st = LEV1)), (decide (position st = LEV2)),
    (last_price st); try done; destruct H as [H|H]; try done; exfalso; auto.
Qed.

(** C1: for a position of the 1x (resp. 2x) contract with the last price set,
    step 1 multiplies the held quantity by exactly
    1 + k * (price - last_price) / last_price with k = 1 (resp. 2), leaving
    the signal set, the position and the rest of the account as they were;
    the signal set and the position are updated on the settled account; and
    the scenario of policy {X} -> 1x contract, rows [enter X at 100, no action
    at 110] and 1000 USD gives quantity 10 and value 1000, then quantity 11
    and value 1210. *)
Theorem settle_multiplies_quantity :
  (∀ (st : state) (price lp k : Q),
     last_price st = Some lp → ¬ (lp == 0)%Q →
     (position st = LEV1 ∧ k = 1%Q) ∨ (position st = LEV2 ∧ k = 2%Q) →
     ∃ st1,
       settle st price = OK st1 ∧
       (btc st1 == btc st * (1 + k * (price - lp) / lp))%Q ∧
       usd st1 = usd st ∧ position st1 = position st ∧
       active_signals st1 = active_signals st ∧
       last_price st1 = last_price st ∧
       ∀ (policy : policy_table) (r : row),
         row_price r = price →
         before_switch policy st r =
           (let st3 := update_signals (update_last_price st1 price) (row_type r)
                         (normalize_signal (row_signal r)) in
            target_position ← resolve_target policy st3;
            mret (st3, target_position))) ∧
  (∃ s1 s2,
     run_backtest policy_B rows_B 1000 = OK [s1; s2] ∧
     (snap_btc s1 == 10)%Q ∧ (snap_total s1 == 1000)%Q ∧
     (snap_btc s2 == 11)%Q ∧ (snap_total s2 == 1210)%Q ∧
     snap_position s1 = LEV1 ∧ snap_position s2 = LEV1 ∧ snap_remark s2 = []).
Proof.
  split.
  - intros st price lp k Hl Hz [[Hp ->] | [Hp ->]].
    + eexists. split; [by apply settle_lev1 |].
      split_and!; try reflexivity.
      * simpl. field. done.
      * intros policy r <-. unfold before_switch.
        by rewrite (settle_lev1 _ _ _ Hp Hl Hz).
    + eexists. split; [by apply settle_lev2 |].
      split_and!; try reflexivity.
      * simpl. field. done.
      * intros policy r <-. unfold before_switch.
        by rewrite (settle_lev2 _ _ _ Hp Hl Hz).
  - eexists _, _. split; [vm_compute; reflexivity |].
    split_and!; vm_compute; reflexivity.
Qed.

Lemma settle_multiplies_quantity_witness :
  ∃ st1,
    settle {| usd := 0; btc := 10; position := LEV2; active_signals := {[scenario_X]};
              last_price := Some 100%Q |} 110 = OK st1 ∧
    (btc st1 == 12)%Q.
Proof.
  destruct (proj1 settle_multiplies_quantity
              {| usd := 0; btc := 10; position := LEV2;
                 active_signals := {[scenario_X]}; last_price := Some 100%Q |}
              110%Q 100%Q 2%Q eq_refl)
    as (st1 & Hs & Hb & _).
  - intros H. vm_compute in H. discriminate.
  - right. split; reflexivity.
  - exists st1. split; [exact Hs |]. rewrite Hb. vm_compute. reflexivity.
Defined.

(** ** One iteration, stage by stage *)

(** Decide every comparison of position names in the goal. *)
Ltac position_absurd :=
  match goal with
  | H : ?a = ?b |- _ => exfalso; discriminate H
  | H : ?a ≠ ?a |- _ => exfalso; apply H; reflexivity
  | H : ¬ (?a = ?a) |- _ => exfalso; apply H; reflexivity
  end.

Ltac position_cases :=
  repeat match goal with
    | H : _ ∈ CONTRACTS |- _ => rewrite elem_of_CONTRACTS in H
    | H : _ ∉ CONTRACTS |- _ => rewrite elem_of_CONTRACTS in H
    | H : _ ∈ POSITIONS |- _ => rewrite elem_of_POSITIONS in H
    | H : _ ∈ _ :: _ |- _ => rewrite elem_of_cons in H
    | H : _ ∈ [] |- _ => exfalso; by apply elem_of_nil in H
    | H : _ ∉ _ :: _ |- _ => rewrite not_elem_of_cons in H
    | H : _ ∨ _ |- _ => destruct H as [H | H]
    | H : ¬ (_ ∨ _) |- _ => apply Decidable.not_or in H; destruct H
    | H : _ ∧ _ |- _ => destruct H
    | H : ?p = _ |- _ => is_var p; subst p
    | |- context [decide ?P] => destruct (decide P)
    end;
  try position_absurd; try done.

Lemma settle_shape (st st1 : state) (price : Q) :
  settle st price = OK st1 → ∃ b, st1 = set_btc st b ∧
    (position st ∉ CONTRACTS ∨ last_price st = None → b = btc st).
Proof.
  unfold settle. destruct st as [u b p a l]; simpl.
  destruct (decide (p = LEV1)) as [E1|E1], l as [lp|];
    try destruct (decide (p = LEV2)) as [E2|E2]; simpl;
    try (destruct (pydiv _ lp) as [x|e]; simpl; [| discriminate]);
    intros [= <-]; eexists; (split; [reflexivity |]);
    rewrite elem_of_CONTRACTS; simpl;
    (intros [H|H];
     [first [reflexivity | exfalso; apply H; auto]
     | first [reflexivity | discriminate]]).
Qed.

Lemma settle_total (st : state) (price : Q) :
  (∀ lp, last_price st = Some lp → ¬ (lp == 0)%Q) →
  ∃ st1, settle st price = OK st1.
Proof.
  intros Hl. unfold settle.
  destruct (decide (position st = LEV1)), (last_price st) as [lp|] eqn:E;
    try destruct (decide (position st = LEV2));
    try rewrite pydiv_ok by auto; simpl; eauto.
Qed.

Lemma check_position_valid (v : pyval) (p : pystr) :
  check_position v = OK p ↔ v = VStr p ∧ p ∈ POSITIONS.
Proof.
  unfold check_position. destruct v as [s|x]; [| split; [done | intros [? _]; done]].
  destruct (decide (s ∈ POSITIONS)); simpl; split.
  - intros [= ->]. done.
  - intros [[= ->] _]. done.
  - done.
  - intros [[= ->] ?]. done.
Qed.

Lemma resolve_target_valid (policy : policy_table) (st : state) (t : pystr) :
  resolve_target policy st = OK t → t ∈ POSITIONS.
Proof.
  unfold resolve_target. destruct (lookup_target policy st) as [v|e]; simpl; [| done].
  intros H. apply check_position_valid in H as [_ H]. exact H.
Qed.

Lemma resolve_target_unmapped (policy : policy_table) (st : state) :
  policy !! active_signals st = None → position st ∈ POSITIONS →
  resolve_target policy st = OK (position st).
Proof.
  intros Hn Hp. unfold resolve_target, lookup_target. rewrite Hn. simpl.
  by rewrite decide_True.
Qed.

Lemma liquidate_fields (st : state) (price : Q) :
  position st ∈ POSITIONS →
  liquidate st price =
    {| usd := liquidated_usd st price; btc := liquidated_btc st;
       position := position st; active_signals := active_signals st;
       last_price := last_price st |}.
Proof.
  intros Hp. unfold liquidate, liquidated_usd, liquidated_btc.
  destruct st as [u b p a l]; simpl in *. position_cases.
Qed.

Lemma switch_position_fields (st : state) (target : pystr) (price : Q) :
  position st ∈ POSITIONS → target ∈ POSITIONS → ¬ (price == 0)%Q →
  switch_position st target price =
    OK ({| usd := if decide (target = FLAT) then liquidated_usd st price else 0;
           btc := if decide (target = FLAT) then liquidated_btc st
                  else (liquidated_usd st price / price)%Q;
           position := target; active_signals := active_signals st;
           last_price := if decide (target ∈ CONTRACTS) then Some price
                         else last_price st |},
        REMARK_PREFIX ++ target).
Proof.
  intros Hp Ht Hz. unfold switch_position. rewrite liquidate_fields by done.
  unfold reopen; simpl.
  destruct (decide (target = SPOT)) as [->|Hs].
  { rewrite pydiv_ok by done. simpl. unfold set_position; simpl.
    repeat f_equal; position_cases. }
  destruct (decide (target ∈ CONTRACTS)) as [Hc|Hc].
  { rewrite pydiv_ok by done. simpl. unfold set_position; simpl.
    repeat f_equal; position_cases. }
  simpl. unfold set_position; simpl.
  repeat f_equal; position_cases.
Qed.

Lemma process_row_inv (policy : policy_table) (st st' : state) (r : row) (snap : snapshot) :
  process_row policy st r = OK (st', snap) →
  ∃ st1 target remark,
    settle st (row_price r) = OK st1 ∧
    resolve_target policy (prepared st1 r) = OK target ∧
    before_switch policy st r = OK (prepared st1 r, target) ∧
    (if decide (target ≠ position st)
     then switch_position (prepared st1 r) target (row_price r) = OK (st', remark)
     else st' = prepared st1 r ∧ remark = []) ∧
    snap = emit st' (row_price r) remark.
Proof.
  unfold process_row, before_switch. fold (prepared).
  destruct (settle st (row_price r)) as [st1|e] eqn:Es; simpl; [| done].
  fold (prepared st1 r).
  destruct (resolve_target policy (prepared st1 r)) as [t|e] eqn:Et; simpl; [| done].
  apply settle_shape in Es as Es'. destruct Es' as (b & -> & _).
  change (position (prepared (set_btc st b) r)) with (position st).
  case_decide as Hne.
  - destruct (switch_position _ t (row_price r)) as [[st4 rem]|e] eqn:Esw;
      simpl; [| done].
    intros [= <- <-]. exists (set_btc st b), t, rem.
    rewrite decide_True by done. done.
  - simpl. intros [= <- <-]. exists (set_btc st b), t, [].
    simpl in Hne. rewrite decide_False by (intros H; by apply H). done.
Qed.

Lemma prepared_fields (st1 : state) (r : row) :
  usd (prepared st1 r) = usd st1 ∧ btc (prepared st1 r) = btc st1 ∧
  position (prepared st1 r) = position st1 ∧
  active_signals (prepared st1 r) =
    toggle_signal (active_signals st1) (row_type r) (normalize_signal (row_signal r)) ∧
  last_price (prepared st1 r) =
    (if decide (position st1 ∈ CONTRACTS) then Some (row_price r) else None).
Proof. done. Qed.

(** An iteration that does not switch: the account is the settled one. *)
Lemma process_row_no_switch (policy : policy_table) (st : state) (r : row) :
  (∀ lp, last_price st = Some lp → ¬ (lp == 0)%Q) →
  resolve_target policy
    (prepared (set_btc st 0) r) = OK (position st) →
  ∃ st1, settle st (row_price r) = OK st1 ∧
         process_row policy st r =
           OK (prepared st1 r, emit (prepared st1 r) (row_price r) []).
Proof.
  intros Hl Ht. destruct (settle_total st (row_price r) Hl) as [st1 Hs].
  exists st1. split; [done |].
  destruct (settle_shape _ _ _ Hs) as (b & -> & _).
  unfold process_row, before_switch. rewrite Hs. simpl.
  fold (prepared (set_btc st b) r).
  replace (resolve_target policy (prepared (set_btc st b) r))
    with (resolve_target policy (prepared (set_btc st 0) r)) by reflexivity.
  rewrite Ht. simpl. by rewrite decide_False by (intros H; by apply H).
Qed.

(** ** Invariants of a run *)

Lemma run_rows_invariant (policy : policy_table) (I : state → Prop) (P : row → Prop) :
  (∀ st r st' s, I st → P r → process_row policy st r = OK (st', s) → I st') →
  ∀ rows st st' snaps,
    Forall P rows → I st → run_rows policy st rows = OK (st', snaps) → I st'.
Proof.
  intros Hstep rows. induction rows as [|r rows IH]; intros st st' snaps HP HI; simpl.
  - intros [= <- _]. done.
  - inversion_clear HP as [|? ? Hr Hrows].
    destruct (process_row policy st r) as [[st1 snap]|e] eqn:E; simpl; [| done].
    destruct (run_rows policy st1 rows) as [[st2 snaps']|e] eqn:E'; simpl; [| done].
    intros [= <- _]. apply (IH st1 st2 snaps'); eauto.
Qed.

Lemma run_rows_length (policy : policy_table) (rows : list row) :
  ∀ st st' snaps, run_rows policy st rows = OK (st', snaps) →
                  length snaps = length rows.
Proof.
  induction rows as [|r rows IH]; intros st st' snaps; simpl.
  - intros [= _ <-]. done.
  - destruct (process_row policy st r) as [[st1 snap]|e]; simpl; [| done].
    destruct (run_rows policy st1 rows) as [[st2 snaps']|e] eqn:E'; simpl; [| done].
    intros [= _ <-]. simpl. f_equal. eauto.
Qed.

Lemma well_formed_init (initial_usd : Q) : well_formed (init_state initial_usd).
Proof.
  unfold well_formed, init_state; simpl. split_and!; try done.
Qed.

Lemma process_row_well_formed (policy : policy_table) (st st' : state) (r : row)
    (snap : snapshot) :
  well_formed st → ¬ (row_price r == 0)%Q →
  process_row policy st r = OK (st', snap) → well_formed st'.
Proof.
  intros (Hp & Hl & Hb & Hu) Hz Hrow.
  apply process_row_inv in Hrow as (st1 & t & rem & Hs & Ht & _ & Hsw & _).
  apply resolve_target_valid in Ht as Htv.
  destruct (settle_shape _ _ _ Hs) as (b & -> & Hbtc).
  case_decide as Hne.
  - rewrite switch_position_fields in Hsw by done.
    injection Hsw as <- _. unfold well_formed; simpl.
    split_and!; try done.
    + intros lp. case_decide; [by intros [= <-] |].
      case_decide; [by intros [= <-] | done].
    + intros ->. rewrite decide_True by done.
      unfold liquidated_btc; simpl. by rewrite decide_False by done.
    + intros Hnf. by rewrite decide_False.
  - destruct Hsw as [-> _]. unfold well_formed; simpl.
    split_and!; try done.
    + intros lp. case_decide; [by intros [= <-] | done].
    + intros Hf. rewrite Hbtc; [by apply Hb |].
      left. rewrite Hf. rewrite elem_of_CONTRACTS. intros [?|?]; discriminate.
Qed.

Lemma run_rows_well_formed (policy : policy_table) (rows : list row)
    (st st' : state) (snaps : list snapshot) :
  Forall (λ r, ¬ (row_price r == 0)%Q) rows → well_formed st →
  run_rows policy st rows = OK (st', snaps) → well_formed st'.
Proof.
  apply (run_rows_invariant policy well_formed (λ r, ¬ (row_price r == 0)%Q)).
  intros ? ? ? ? ? ? ?. by eapply process_row_well_formed.
Qed.

(** ** The default-continuation rule *)

(** C3: when the set of active signals a row results in has no entry in the
    policy table, the iteration raises nothing, the target is the current
    position, nothing is liquidated or reopened (the holdings are those left
    by the settlement) and the remark is empty. In the scenario of a policy
    without an entry for the set of X and Y, entering Y while X is active
    leaves the position at spot with no remark. *)
Theorem unmapped_signal_set_keeps_position :
  (∀ (policy : policy_table) (rows : list row) (initial_usd : Q) (st : state)
     (snaps : list snapshot) (r : row),
     Forall (λ r, ¬ (row_price r == 0)%Q) rows →
     run_rows policy (init_state initial_usd) rows = OK (st, snaps) →
     policy !! toggle_signal (active_signals st) (row_type r)
                 (normalize_signal (row_signal r)) = None →
     ∃ st1 st' snap,
       settle st (row_price r) = OK st1 ∧
       before_switch policy st r = OK (prepared st1 r, position st) ∧
       process_row policy st r = OK (st', snap) ∧
       position st' = position st ∧ usd st' = usd st1 ∧ btc st' = btc st1 ∧
       snap_position snap = position st ∧ snap_remark snap = []) ∧
  (policy_C !! ({[scenario_X; scenario_Y]} : gset pystr) = None ∧
   ∃ s1 s2,
     run_backtest policy_C rows_C 1000 = OK [s1; s2] ∧
     snap_position s1 = SPOT ∧ snap_signals s1 = str "X" ∧
     snap_position s2 = SPOT ∧ snap_signals s2 = str "X,Y" ∧
     snap_remark s2 = []).
Proof.
  split.
  - intros policy rows initial_usd st snaps r Hrows Hrun Hnone.
    pose proof (run_rows_well_formed _ _ _ _ _ Hrows
                  (well_formed_init initial_usd) Hrun) as (Hp & Hl & _).
    assert (Ht : resolve_target policy (prepared (set_btc st 0) r) = OK (position st))
      by (by apply (resolve_target_unmapped policy (prepared (set_btc st 0) r))).
    destruct (process_row_no_switch policy st r Hl Ht) as (st1 & Hs & Hrow).
    destruct (settle_shape _ _ _ Hs) as (b & -> & _).
    eexists _, _, _. split; [exact Hs |]. split; [| split; [exact Hrow |]].
    + unfold before_switch. rewrite Hs. simpl.
      fold (prepared (set_btc st b) r).
      replace (resolve_target policy (prepared (set_btc st b) r))
        with (resolve_target policy (prepared (set_btc st 0) r)) by reflexivity.
      by rewrite Ht.
    + done.
  - split; [vm_compute; reflexivity |].
    eexists _, _. split; [vm_compute; reflexivity |].
    split_and!; vm_compute; reflexivity.
Qed.

Lemma unmapped_signal_set_keeps_position_witness :
  ∃ st st' snap,
    run_rows policy_C (init_state 1000) [Row 100 ENTER scenario_X]
      = OK (st, [emit st 100 (REMARK_PREFIX ++ SPOT)]) ∧
    process_row policy_C st (Row 110 ENTER scenario_Y) = OK (st', snap) ∧
    position st = SPOT ∧ position st' = SPOT ∧ snap_remark snap = [].
Proof.
  pose (st := {| usd := 0; btc := (1000 / 100)%Q; position := SPOT;
                 active_signals := {[scenario_X]}; last_price := None |}).
  destruct (proj1 unmapped_signal_set_keeps_position policy_C
              [Row 100 ENTER scenario_X] 1000%Q st
              [emit st 100 (REMARK_PREFIX ++ SPOT)] (Row 110 ENTER scenario_Y))
    as (st1 & st' & snap & _ & _ & Hrow & Hp & _ & _ & _ & Hrem).
  - repeat constructor. simpl. intros H. vm_compute in H. discriminate.
  - vm_compute. reflexivity.
  - vm_compute. reflexivity.
  - exists st, st', snap. split_and!; done.
Defined.

(** ** Holding a contract over price moves *)

Lemma switch_position_position (st st' : state) (target rem : pystr) (price : Q) :
  switch_position st target price = OK (st', rem) → position st' = target.
Proof.
  unfold switch_position.
  destruct (reopen (liquidate st price) target price) as [st2|e]; simpl; [| done].
  by intros [= <- _].
Qed.

(** An iteration after which the position is the one before it made no
    switch: the holdings are those the settlement left. *)
Lemma process_row_same_position (policy : policy_table) (st st' : state) (r : row)
    (snap : snapshot) :
  process_row policy st r = OK (st', snap) → position st' = position st →
  ∃ st1, settle st (row_price r) = OK st1 ∧ st' = prepared st1 r ∧
         snap_remark snap = [].
Proof.
  intros Hrow Hpos.
  apply process_row_inv in Hrow as (st1 & t & rem & Hs & _ & _ & Hsw & ->).
  exists st1. split; [done |]. case_decide as Hne.
  - apply switch_position_position in Hsw. congruence.
  - destruct Hsw as [-> ->]. done.
Qed.

(** C8, as the sentence reads: over the price path 100, 110, 121 with no
    switch after the entry, the run holding the 1x contract goes from 10 to
    12.1 (a fractional change of 0.21) and the run holding the 2x contract
    from 10 to 14.4 (0.44), which is not the double. *)
Lemma leverage_amplification_counterexample :
  ∃ a1 a2 a3 b1 b2 b3,
    run_backtest (policy_lev LEV1) rows_path 1000 = OK [a1; a2; a3] ∧
    run_backtest (policy_lev LEV2) rows_path 1000 = OK [b1; b2; b3] ∧
    snap_position a1 = LEV1 ∧ snap_position a2 = LEV1 ∧ snap_position a3 = LEV1 ∧
    snap_position b1 = LEV2 ∧ snap_position b2 = LEV2 ∧ snap_position b3 = LEV2 ∧
    snap_remark a2 = [] ∧ snap_remark a3 = [] ∧
    snap_remark b2 = [] ∧ snap_remark b3 = [] ∧
    (snap_btc a1 == 10)%Q ∧ (snap_btc b1 == 10)%Q ∧
    (snap_btc a3 == 121 # 10)%Q ∧ (snap_btc b3 == 144 # 10)%Q ∧
    ¬ ((snap_btc b3 - snap_btc b1) / snap_btc b1
       == 2 * ((snap_btc a3 - snap_btc a1) / snap_btc a1))%Q.
Proof.
  eexists _, _, _, _, _, _.
  split; [vm_compute; reflexivity |]. split; [vm_compute; reflexivity |].
  split_and!; try (vm_compute; reflexivity).
  vm_compute. discriminate.
Qed.

(** C8 (amended): for two accounts that differ only in holding the 1x and
    the 2x contract, with the same quantity and the same last price P0, one
    row at price P1 that switches neither of them changes the quantity of
    the 2x account by a fraction that is exactly double the fraction of the
    1x account. *)
Theorem leverage_amplification_one_move
    (policy1 policy2 : policy_table) (st1 st2 st1' st2' : state) (r : row) (lp : Q)
    (s1 s2 : snapshot) :
  position st1 = LEV1 → position st2 = LEV2 →
  last_price st1 = Some lp → last_price st2 = Some lp →
  btc st1 = btc st2 → ¬ (lp == 0)%Q → ¬ (btc st1 == 0)%Q →
  process_row policy1 st1 r = OK (st1', s1) →
  process_row policy2 st2 r = OK (st2', s2) →
  position st1' = LEV1 → position st2' = LEV2 →
  ((btc st2' - btc st2) / btc st2 == 2 * ((btc st1' - btc st1) / btc st1))%Q ∧
  ((btc st1' - btc st1) / btc st1 == (row_price r - lp) / lp)%Q.
Proof.
  intros Hp1 Hp2 Hl1 Hl2 Hq Hz Hq0 Hrow1 Hrow2 Hp1' Hp2'.
  apply process_row_same_position in Hrow1 as (x1 & Hs1 & -> & _); [| congruence].
  apply process_row_same_position in Hrow2 as (x2 & Hs2 & -> & _); [| congruence].
  rewrite (settle_lev1 _ _ _ Hp1 Hl1 Hz) in Hs1. injection Hs1 as <-.
  rewrite (settle_lev2 _ _ _ Hp2 Hl2 Hz) in Hs2. injection Hs2 as <-.
  simpl. rewrite <- Hq. split; field; done.
Qed.

Lemma leverage_amplification_one_move_witness :
  ∃ st1' st2' s1 s2,
    process_row (policy_lev LEV1)
      {| usd := 0; btc := 10; position := LEV1; active_signals := {[scenario_X]};
         last_price := Some 100%Q |} (Row 110 NO_ACTION scenario_X) = OK (st1', s1) ∧
    process_row (policy_lev LEV2)
      {| usd := 0; btc := 10; position := LEV2; active_signals := {[scenario_X]};
         last_price := Some 100%Q |} (Row 110 NO_ACTION scenario_X) = OK (st2', s2) ∧
    ((btc st2' - 10) / 10 == 2 * ((btc st1' - 10) / 10))%Q.
Proof.
  eexists _, _, _, _.
  split; [vm_compute; reflexivity |]. split; [vm_compute; reflexivity |].
  refine (proj1 (leverage_amplification_one_move (policy_lev LEV1) (policy_lev LEV2)
            {| usd := 0; btc := 10; position := LEV1; active_signals := {[scenario_X]};
               last_price := Some 100%Q |}
            {| usd := 0; btc := 10; position := LEV2; active_signals := {[scenario_X]};
               last_price := Some 100%Q |}
            _ _ (Row 110 NO_ACTION scenario_X) 100%Q _ _
            eq_refl eq_refl eq_refl eq_refl eq_refl _ _ _ _ _ _)).
  - intros H. vm_compute in H. discriminate.
  - intros H. vm_compute in H. discriminate.
  - vm_compute. reflexivity.
  - vm_compute. reflexivity.
  - reflexivity.
  - reflexivity.
Defined.

(** ** Value and sign of the holdings *)

Lemma Qdiv_pos (a b : Q) : (0 < a)%Q → (0 < b)%Q → (0 < a / b)%Q.
Proof.
  intros Ha Hb. apply Qlt_shift_div_l; [done |]. by rewrite Qmult_0_l.
Qed.

Lemma Qpos_nonzero (a : Q) : (0 < a)%Q → ¬ (a == 0)%Q.
Proof. intros Ha E. rewrite E in Ha. by apply Qlt_irrefl in Ha. Qed.

Lemma settle_solvent (st : state) (price : Q) :
  solvent st → (0 < price)%Q → wiped_out st price = false →
  ∃ b, settle st price = OK (set_btc st b) ∧
       (position st = FLAT → b = btc st) ∧
       (position st ≠ FLAT → (0 < b)%Q).
Proof.
  intros (Hp & Hl & Hf & Hn) Hprice Hw.
  destruct (decide (position st ∈ CONTRACTS)) as [Hc|Hc];
    [destruct (last_price st) as [lp|] eqn:El |].
  - specialize (Hl lp eq_refl). pose proof (Qpos_nonzero _ Hl) as Hz.
    assert (Hnf : position st ≠ FLAT)
      by (apply elem_of_CONTRACTS in Hc as [E|E]; rewrite E; discriminate).
    destruct (Hn Hnf) as [_ Hb].
    apply elem_of_CONTRACTS in Hc as [E|E].
    + rewrite (settle_lev1 _ _ _ E El Hz). eexists. split; [done |].
      split; [done |]. intros _.
      setoid_replace (btc st + (price - lp) / lp * btc st)%Q
        with (btc st * (price / lp))%Q using relation Qeq by (field; done).
      apply Qmult_lt_0_compat; [done | by apply Qdiv_pos].
    + rewrite (settle_lev2 _ _ _ E El Hz). eexists. split; [done |].
      split; [done |]. intros _.
      setoid_replace (btc st + 2 * (price - lp) / lp * btc st)%Q
        with (btc st * ((2 * price - lp) / lp))%Q using relation Qeq
        by (field; done).
      apply Qmult_lt_0_compat; [done |]. apply Qdiv_pos; [| done].
      unfold wiped_out in Hw. rewrite El in Hw.
      destruct (decide (position st = LEV2)); [| done].
      assert (lp < 2 * price)%Q.
      { apply Qnot_le_lt. intros H. apply Qle_bool_iff in H. congruence. }
      lra.
  - rewrite settle_other by auto. exists (btc st). split; [by destruct st |].
    split; [done |]. intros Hnf. by apply Hn.
  - rewrite settle_other by auto. exists (btc st). split; [by destruct st |].
    split; [done |]. intros Hnf. by apply Hn.
Qed.

Lemma process_row_solvent (policy : policy_table) (st st' : state) (r : row)
    (snap : snapshot) :
  solvent st → (0 < row_price r)%Q → wiped_out st (row_price r) = false →
  process_row policy st r = OK (st', snap) → solvent st'.
Proof.
  intros Hsol Hprice Hw Hrow.
  destruct (settle_solvent st _ Hsol Hprice Hw) as (b & Hs & Hbf & Hbn).
  destruct Hsol as (Hp & Hl & Hf & Hn).
  apply process_row_inv in Hrow as (st1 & t & rem & Hs' & Ht & _ & Hsw & _).
  rewrite Hs in Hs'. injection Hs' as <-.
  apply resolve_target_valid in Ht as Htv.
  pose proof (Qpos_nonzero _ Hprice) as Hz.
  case_decide as Hne.
  - rewrite switch_position_fields in Hsw by done.
    injection Hsw as <- _. unfold solvent, liquidated_usd, liquidated_btc; simpl.
    split_and!; try done.
    + intros lp. case_decide; [by intros [= <-] |].
      case_decide; [by intros [= <-] | done].
    + intros ->. assert (Hnf : position st ≠ FLAT) by done.
      repeat case_decide; try done.
      split; [apply Qmult_lt_0_compat; auto | reflexivity].
    + intros Hnf. repeat case_decide; try done;
        (split; [reflexivity | apply Qdiv_pos; [| done]]).
      * by apply Hf.
      * apply Qmult_lt_0_compat; auto.
  - destruct Hsw as [-> _]. unfold solvent; simpl.
    split_and!; try done.
    + intros lp. case_decide; [by intros [= <-] | done].
    + intros Hpf. rewrite (Hbf Hpf). by apply Hf.
    + intros Hnf. split; [by apply Hn | by apply Hbn].
Qed.

Lemma run_rows_solvent (policy : policy_table) (rows : list row) :
  ∀ (st st' : state) (snaps : list snapshot),
    solvent st → Forall (λ r, (0 < row_price r)%Q) rows →
    survives policy st rows = true →
    run_rows policy st rows = OK (st', snaps) → solvent st'.
Proof.
  induction rows as [|r rows IH]; intros st st' snaps Hsol Hpos Hsurv; simpl.
  - by intros [= <- _].
  - inversion_clear Hpos as [|? ? Hr Hrows]. simpl in Hsurv.
    apply andb_true_iff in Hsurv as [Hw Hsurv]. apply negb_true_iff in Hw.
    destruct (process_row policy st r) as [[st1 snap]|e] eqn:E; simpl; [| done].
    destruct (run_rows policy st1 rows) as [[st2 snaps']|e] eqn:E'; simpl; [| done].
    intros [= <- _]. apply (IH st1 st2 snaps'); try done.
    by eapply process_row_solvent.
Qed.

(** C5, as the sentence reads: a 2x contract entered at 100 and settled at 40
    leaves a quantity of -2. *)
Lemma account_invariant_counterexample :
  ∃ st snaps,
    run_rows (policy_lev LEV2) (init_state 1000)
      [Row 100 ENTER scenario_X; Row 40 NO_ACTION scenario_X] = OK (st, snaps) ∧
    position st = LEV2 ∧ (btc st == -2)%Q ∧ ¬ (0 <= btc st)%Q.
Proof.
  eexists _, _. split; [vm_compute; reflexivity |].
  split_and!; [reflexivity | vm_compute; reflexivity |].
  intros H. vm_compute in H. by apply H.
Qed.

(** C5 (amended): for rows with strictly positive prices and a positive
    initial capital, as long as no row settles a 2x contract at a price of at
    most half its last price, after each row the quantity and the USD balance
    are not negative and exactly one of them is not zero. *)
Theorem account_invariant (policy : policy_table) (rows : list row) (initial_usd : Q)
    (st : state) (snaps : list snapshot) :
  (0 < initial_usd)%Q →
  Forall (λ r, (0 < row_price r)%Q) rows →
  survives policy (init_state initial_usd) rows = true →
  run_rows policy (init_state initial_usd) rows = OK (st, snaps) →
  (0 <= btc st)%Q ∧ (0 <= usd st)%Q ∧
  ((¬ (usd st == 0)%Q ∧ (btc st == 0)%Q) ∨ ((usd st == 0)%Q ∧ ¬ (btc st == 0)%Q)).
Proof.
  intros Hinit Hpos Hsurv Hrun.
  assert (Hsol : solvent (init_state initial_usd)).
  { unfold solvent, init_state; simpl. split_and!; try done. }
  destruct (run_rows_solvent policy rows _ _ _ Hsol Hpos Hsurv Hrun)
    as (_ & _ & Hf & Hn).
  destruct (decide (position st = FLAT)) as [E|E].
  - destruct (Hf E) as [Hu Hb]. rewrite Hb. split_and!; [lra | lra |].
    left. split; [by apply Qpos_nonzero | reflexivity].
  - destruct (Hn E) as [Hu Hb]. rewrite Hu. split_and!; [lra | lra |].
    right. split; [reflexivity | by apply Qpos_nonzero].
Qed.

Lemma account_invariant_witness :
  ∃ st snaps,
    run_rows (policy_lev LEV2) (init_state 1000)
      [Row 100 ENTER scenario_X; Row 60 NO_ACTION scenario_X] = OK (st, snaps) ∧
    (0 <= btc st)%Q ∧ (0 <= usd st)%Q ∧
    ((¬ (usd st == 0)%Q ∧ (btc st == 0)%Q) ∨ ((usd st == 0)%Q ∧ ¬ (btc st == 0)%Q)).
Proof.
  eexists _, _. split; [vm_compute; reflexivity |].
  eapply (account_invariant (policy_lev LEV2)
            [Row 100 ENTER scenario_X; Row 60 NO_ACTION scenario_X] 1000%Q).
  - vm_compute. reflexivity.
  - repeat constructor.
  - vm_compute. reflexivity.
  - vm_compute. reflexivity.
Defined.

(** ** The switch and the value of the account *)

(** C2, as the sentence reads: a 2x contract entered at 100 is worth -80
    when the exit row at 40 has been settled (a quantity of -2), and the
    switch to flat leaves a USD balance of -80, which line 142 reads as 0. *)
Lemma switch_value_counterexample :
  ∃ st snaps mid st' rem,
    run_rows policy_W (init_state 1000) [Row 100 ENTER scenario_X] = OK (st, snaps) ∧
    before_switch policy_W st (Row 40 EXIT scenario_X) = OK (mid, FLAT) ∧
    FLAT ≠ position mid ∧
    switch_position mid FLAT 40 = OK (st', rem) ∧
    process_row policy_W st (Row 40 EXIT scenario_X) = OK (st', emit st' 40 rem) ∧
    (total_assets mid 40 == -80)%Q ∧ (total_assets st' 40 == 0)%Q ∧
    ¬ (total_assets st' 40 == total_assets mid 40)%Q.
Proof.
  eexists _, _, _, _, _.
  split; [vm_compute; reflexivity |]. split; [vm_compute; reflexivity |].
  split; [discriminate |]. split; [vm_compute; reflexivity |].
  split; [vm_compute; reflexivity |].
  split_and!; try (vm_compute; reflexivity).
  vm_compute. discriminate.
Qed.

Lemma total_assets_cash (st : state) (price : Q) :
  (0 <= usd st)%Q → (btc st == 0)%Q → (total_assets st price == usd st)%Q.
Proof.
  intros Hu Hb. unfold total_assets. destruct (Qgtb (usd st) 0) eqn:E; [reflexivity |].
  apply Qgtb_false in E. rewrite Hb. assert (usd st == 0)%Q by lra. lra.
Qed.

Lemma total_assets_held (st : state) (price : Q) :
  (usd st == 0)%Q → (total_assets st price == btc st * price)%Q.
Proof.
  intros Hu. unfold total_assets. destruct (Qgtb (usd st) 0) eqn:E; [| reflexivity].
  apply Qgtb_true in E. lra.
Qed.

Lemma switch_position_value (mid : state) (target : pystr) (price : Q) :
  position mid ∈ POSITIONS → target ∈ POSITIONS → target ≠ position mid →
  (0 < price)%Q →
  (position mid = FLAT → (btc mid == 0)%Q) →
  (position mid ≠ FLAT → (usd mid == 0)%Q) →
  (0 <= usd mid)%Q → (0 <= btc mid)%Q →
  ∃ st' rem,
    switch_position mid target price = OK (st', rem) ∧
    (total_assets st' price == total_assets mid price)%Q.
Proof.
  intros Hp Ht Hne Hprice Hf Hn Hu Hb.
  pose proof (Qpos_nonzero _ Hprice) as Hz.
  rewrite switch_position_fields by done.
  eexists _, _. split; [reflexivity |].
  unfold liquidated_usd, liquidated_btc.
  destruct (decide (position mid = FLAT)) as [Ef|Ef],
    (decide (target = FLAT)) as [Et|Et]; try congruence.
  - rewrite total_assets_held by reflexivity.
    rewrite (total_assets_cash mid) by auto.
    simpl. field. done.
  - rewrite (total_assets_held mid) by auto.
    unfold total_assets at 1; simpl.
    destruct (Qgtb (btc mid * price) 0) eqn:E; [reflexivity |].
    apply Qgtb_false in E.
    assert (0 <= btc mid * price)%Q by (apply Qmult_le_0_compat; lra). lra.
  - rewrite total_assets_held by reflexivity.
    rewrite (total_assets_held mid) by auto.
    simpl. field. done.
Qed.

(** C2 (amended): at every row of a run at which the position is switched
    with a positive price, when neither the USD balance nor the quantity is
    negative before the switch, the value of line 142 read before the switch
    equals the value read after liquidating and reopening at that price. *)
Theorem switch_preserves_value (policy : policy_table) (rows : list row)
    (initial_usd : Q) (st mid : state) (snaps : list snapshot) (r : row)
    (target : pystr) :
  Forall (λ r, ¬ (row_price r == 0)%Q) rows →
  run_rows policy (init_state initial_usd) rows = OK (st, snaps) →
  before_switch policy st r = OK (mid, target) →
  target ≠ position mid → (0 < row_price r)%Q →
  (0 <= usd mid)%Q → (0 <= btc mid)%Q →
  ∃ st' rem,
    switch_position mid target (row_price r) = OK (st', rem) ∧
    process_row policy st r = OK (st', emit st' (row_price r) rem) ∧
    (total_assets st' (row_price r) == total_assets mid (row_price r))%Q.
Proof.
  intros Hrows Hrun Hmid Hne Hprice Hu Hb.
  pose proof (run_rows_well_formed _ _ _ _ _ Hrows
                (well_formed_init initial_usd) Hrun) as (Hp & Hl & Hf & Hn).
  assert (Hrow : process_row policy st r =
                 (if decide (target ≠ position mid)
                  then switch_position mid target (row_price r)
                  else mret (mid, []))
                 ≫= (λ '(st4, remark), mret (st4, emit st4 (row_price r) remark)))
    by (unfold process_row; by rewrite Hmid).
  rewrite decide_True in Hrow by done.
  unfold before_switch in Hmid.
  destruct (settle st (row_price r)) as [st1|e] eqn:Hs; simpl in Hmid; [| done].
  fold (prepared st1 r) in Hmid.
  destruct (resolve_target policy (prepared st1 r)) as [t|e] eqn:Ht;
    simpl in Hmid; [| done].
  injection Hmid as <- <-. apply resolve_target_valid in Ht as Htv.
  destruct (settle_shape _ _ _ Hs) as (b & -> & Hbtc).
  destruct (switch_position_value (prepared (set_btc st b) r) t (row_price r))
    as (st' & rem & Hsw & Hval); try done.
  - simpl. intros Ef. rewrite Hbtc; [by apply Hf |].
    left. rewrite Ef, elem_of_CONTRACTS. intros [?|?]; discriminate.
  - exists st', rem. rewrite Hsw in Hrow. done.
Qed.

Lemma switch_preserves_value_witness :
  ∃ st' rem,
    process_row policy_C (init_state 1000) (Row 100 ENTER scenario_X)
      = OK (st', emit st' 100 rem) ∧
    position st' = SPOT ∧
    (total_assets st' 100 == 1000)%Q.
Proof.
  destruct (switch_preserves_value policy_C [] 1000%Q (init_state 1000)
              (prepared (init_state 1000) (Row 100 ENTER scenario_X)) []
              (Row 100 ENTER scenario_X) SPOT)
    as (st' & rem & Hsw & Hrow & Hval).
  - constructor.
  - reflexivity.
  - vm_compute. reflexivity.
  - discriminate.
  - vm_compute. reflexivity.
  - vm_compute. discriminate.
  - vm_compute. discriminate.
  - exists st', rem. split; [exact Hrow |].
    split; [by apply switch_position_position in Hsw |].
    rewrite Hval. vm_compute. reflexivity.
Defined.

(** ** The recorded last price *)

Lemma liquidate_last_price (st : state) (price : Q) :
  last_price (liquidate st price) = last_price st.
Proof. unfold liquidate. repeat case_decide; done. Qed.

(** C9, as the sentence reads (last_price is set at the end of a row if and
    only if the position is a contract, also at the row that closes a
    contract): with the policy {} -> flat, {X} -> 1x contract and the rows
    [enter X at 100, exit X at 110] the run ends flat with last_price = 110.
    Lines 101-102 set it while the contract is still held and the switch of
    lines 119-139 clears nothing; lines 103-104 of the next row clear it
    before anything reads it. *)
Lemma last_price_left_set_counterexample :
  ∃ st snaps,
    run_rows policy_D (init_state 1000) rows_D = OK (st, snaps) ∧
    position st = FLAT ∧
    last_price st = Some 110%Q ∧
    ¬ (is_Some (last_price st) ↔ position st ∈ CONTRACTS).
Proof.
  destruct (run_rows policy_D (init_state 1000) rows_D) as [[st snaps]|e] eqn:E;
    [| vm_compute in E; discriminate].
  vm_compute in E. injection E as <- <-.
  eexists _, _. split; [reflexivity |].
  split; [reflexivity |]. split; [reflexivity |].
  intros [Hset _]. cbn [last_price position] in Hset.
  assert (Hc : FLAT ∈ CONTRACTS) by (apply Hset; by eexists).
  apply elem_of_CONTRACTS in Hc as [Hc|Hc]; discriminate.
Qed.

(** C9 (amended): what run_backtest leaves in last_price at the end of a
    row. After a row that ends in a contract position the last price is the
    price of the row. After a row that ends flat or in spot, the last price
    is unset when the row started flat or in spot, and is the price of the
    row when the row started in a contract position: the row that closes a
    contract leaves the last price set (lines 101-102 set it, and lines
    130-137 clear nothing), as in the run of the policy {} -> flat,
    {X} -> 1x contract over the rows [enter X at 100, exit X at 110], which
    ends flat with last_price = 110. *)
Theorem last_price_after_row :
  (∀ (policy : policy_table) (st st' : state) (r : row) (snap : snapshot),
     process_row policy st r = OK (st', snap) →
     (position st' ∈ CONTRACTS → last_price st' = Some (row_price r)) ∧
     (position st' ∉ CONTRACTS →
      last_price st' =
        if decide (position st ∈ CONTRACTS) then Some (row_price r) else None)) ∧
  (∃ st snaps,
     run_rows policy_D (init_state 1000) rows_D = OK (st, snaps) ∧
     position st = FLAT ∧ last_price st = Some 110%Q).
Proof.
  split.
  - intros policy st st' r snap Hrow.
    apply process_row_inv in Hrow as (st1 & t & rem & Hs & Ht & _ & Hsw & _).
    destruct (settle_shape _ _ _ Hs) as (b & -> & _).
    case_decide as Hne.
    + unfold switch_position in Hsw.
      destruct (reopen _ t (row_price r)) as [st2|e] eqn:Ero; simpl in Hsw; [| done].
      injection Hsw as <- _. simpl.
      unfold reopen in Ero.
      destruct (decide (t = SPOT)) as [->|Hns].
      * destruct (pydiv _ _); simpl in Ero; [| done]. injection Ero as <-. simpl.
        split; [intros Hc; position_cases |].
        intros _. by rewrite liquidate_last_price.
      * destruct (decide (t ∈ CONTRACTS)) as [Hc|Hc].
        -- destruct (pydiv _ _); simpl in Ero; [| done]. injection Ero as <-.
           simpl. done.
        -- simpl in Ero. injection Ero as <-. split; [done |].
           intros _. by rewrite liquidate_last_price.
    + destruct Hsw as [-> _]. simpl. split.
      * intros Hc. by rewrite decide_True.
      * intros Hc. by rewrite decide_False.
  - eexists _, _. split; [vm_compute; reflexivity |]. done.
Qed.

Lemma last_price_after_row_witness :
  ∃ st' snap,
    process_row policy_D
      {| usd := 0; btc := 10; position := LEV1;
         active_signals := {[scenario_X]}; last_price := Some 100%Q |}
      (Row 110 EXIT scenario_X) = OK (st', snap) ∧
    position st' = FLAT ∧
    last_price st' = Some 110%Q.
Proof.
  destruct (process_row policy_D
              {| usd := 0; btc := 10; position := LEV1;
                 active_signals := {[scenario_X]}; last_price := Some 100%Q |}
              (Row 110 EXIT scenario_X)) as [[st' snap]|e] eqn:E;
    [| vm_compute in E; discriminate].
  exists st', snap. split; [reflexivity |].
  destruct (proj1 last_price_after_row _ _ _ _ _ E) as [_ Hflat].
  assert (Hp : position st' = FLAT)
    by (vm_compute in E; injection E as <- _; reflexivity).
  split; [exact Hp |].
  rewrite Hflat.
  - cbn [position]. rewrite decide_True; [reflexivity |].
    apply elem_of_CONTRACTS. by left.
  - rewrite Hp. intros Hc.
    apply elem_of_CONTRACTS in Hc as [Hc|Hc]; discriminate.
Defined.

(** ** The check of the position names *)

Lemma cfg_lookup_size (c : cfg) (k : pystr) (v : pyval) :
  c !! k = Some v → size c ≠ 0%nat.
Proof.
  intros Hk Hs. apply map_size_empty_inv in Hs. subst c.
  by rewrite lookup_empty in Hk.
Qed.

Lemma resolve_target_ok (policy : policy_table) (st : state) :
  position st ∈ POSITIONS → entry_ok policy (active_signals st) →
  ∃ t, resolve_target policy st = OK t.
Proof.
  intros Hp. unfold entry_ok, resolve_target, lookup_target.
  destruct (policy !! active_signals st) as [c|]; simpl.
  - intros [Hs | (p & Hk & Hpos)].
    + rewrite decide_True by done. simpl. rewrite decide_True by done. eauto.
    + rewrite decide_False by (by eapply cfg_lookup_size).
      rewrite Hk. simpl. rewrite decide_True by done. eauto.
  - intros _. rewrite decide_True by done. eauto.
Qed.

Lemma resolve_target_invalid (policy : policy_table) (st : state) :
  entry_invalid policy (active_signals st) →
  resolve_target policy st = Raise ValueError.
Proof.
  intros (c & v & Hc & Hk & Hv). unfold resolve_target, lookup_target.
  rewrite Hc. rewrite decide_False by (by eapply cfg_lookup_size).
  rewrite Hk. simpl. destruct v as [p|x]; simpl; [| done].
  rewrite decide_False; [done |]. by apply Hv.
Qed.

Lemma process_row_signals (policy : policy_table) (st st' : state) (r : row)
    (snap : snapshot) :
  process_row policy st r = OK (st', snap) →
  active_signals st' =
    toggle_signal (active_signals st) (row_type r) (normalize_signal (row_signal r)).
Proof.
  intros Hrow.
  apply process_row_inv in Hrow as (st1 & t & rem & Hs & _ & _ & Hsw & _).
  destruct (settle_shape _ _ _ Hs) as (b & -> & _).
  case_decide.
  - unfold switch_position, reopen, liquidate in Hsw.
    repeat case_decide; simpl in Hsw;
      try (destruct (pydiv _ _); simpl in Hsw; [| done]);
      by injection Hsw as <- _.
  - by destruct Hsw as [-> _].
Qed.

Lemma process_row_total (policy : policy_table) (st : state) (r : row) :
  well_formed st → ¬ (row_price r == 0)%Q →
  entry_ok policy (toggle_signal (active_signals st) (row_type r)
                     (normalize_signal (row_signal r))) →
  ∃ st' snap, process_row policy st r = OK (st', snap).
Proof.
  intros (Hp & Hl & _) Hz Hok.
  destruct (settle_total st (row_price r) Hl) as [st1 Hs].
  destruct (settle_shape _ _ _ Hs) as (b & -> & _).
  destruct (resolve_target_ok policy (prepared (set_btc st b) r)) as [t Ht];
    [done | done |].
  apply resolve_target_valid in Ht as Htv.
  unfold process_row, before_switch. rewrite Hs. simpl.
  fold (prepared (set_btc st b) r). rewrite Ht. simpl.
  case_decide; [| simpl; eauto].
  rewrite switch_position_fields by done. simpl. eauto.
Qed.

Lemma process_row_invalid (policy : policy_table) (st : state) (r : row) :
  well_formed st →
  entry_invalid policy (toggle_signal (active_signals st) (row_type r)
                          (normalize_signal (row_signal r))) →
  process_row policy st r = Raise ValueError.
Proof.
  intros (Hp & Hl & _) Hbad.
  destruct (settle_total st (row_price r) Hl) as [st1 Hs].
  destruct (settle_shape _ _ _ Hs) as (b & -> & _).
  unfold process_row, before_switch. rewrite Hs. simpl.
  fold (prepared (set_btc st b) r).
  by rewrite (resolve_target_invalid policy (prepared (set_btc st b) r)).
Qed.

Lemma run_rows_app (policy : policy_table) (rows1 rows2 : list row) :
  ∀ st, run_rows policy st (rows1 ++ rows2) =
        '(st1, snaps1) ← run_rows policy st rows1;
        '(st2, snaps2) ← run_rows policy st1 rows2;
        mret (st2, snaps1 ++ snaps2).
Proof.
  induction rows1 as [|r rows1 IH]; intros st; simpl.
  - by destruct (run_rows policy st rows2) as [[? ?]|].
  - destruct (process_row policy st r) as [[st1 snap]|e]; simpl; [| done].
    rewrite IH. destruct (run_rows policy st1 rows1) as [[st2 snaps]|e]; simpl; [| done].
    by destruct (run_rows policy st2 rows2) as [[? ?]|].
Qed.

Lemma run_rows_total (policy : policy_table) (rows : list row) :
  ∀ st, well_formed st →
        Forall (λ r, ¬ (row_price r == 0)%Q) rows →
        Forall (entry_ok policy) (signal_trace (active_signals st) rows) →
        ∃ st' snaps, run_rows policy st rows = OK (st', snaps).
Proof.
  induction rows as [|r rows IH]; intros st Hwf Hz Hok; simpl; [eauto |].
  inversion_clear Hz as [|? ? Hr Hrows]. simpl in Hok.
  inversion_clear Hok as [|? ? Hk Hks].
  destruct (process_row_total policy st r Hwf Hr Hk) as (st1 & snap & Hrow).
  rewrite Hrow. simpl.
  destruct (IH st1) as (st2 & snaps & Hrun).
  - by eapply process_row_well_formed.
  - done.
  - by rewrite (process_row_signals _ _ _ _ _ Hrow).
  - rewrite Hrun. simpl. eauto.
Qed.

(** C4, as the sentence reads: the policy maps the set of X to a name that is
    not a position, and a run whose rows never activate X returns its table:
    nothing is raised. *)
Lemma invalid_policy_counterexample :
  entry_invalid policy_bad {[scenario_X]} ∧
  ∃ s1 s2,
    run_backtest policy_bad
      [Row 100 ENTER scenario_Y; Row 110 EXIT scenario_Y] 1000 = OK [s1; s2] ∧
    snap_position s1 = FLAT ∧ snap_position s2 = FLAT.
Proof.
  split.
  - exists (position_cfg BOGUS), (VStr BOGUS). split_and!; try reflexivity.
    intros p [= <-]. rewrite elem_of_POSITIONS. intros [?|[?|[?|?]]]; discriminate.
  - eexists _, _. split; [vm_compute; reflexivity |]. done.
Qed.

(** C4 (amended): run_backtest checks a position name when a row looks it
    up (lines 113-116), not before the loop. The run raises ValueError at
    the first row whose set of active signals is mapped to a value outside
    the four names, after the rows before it have been processed, and no
    table is returned; a run none of whose rows looks such an entry up (rows
    with non-zero prices) returns a table with one row per input row,
    whatever the other entries of the policy hold. *)
Theorem invalid_position_raises_at_lookup :
  (∀ (policy : policy_table) (rows1 rows2 : list row) (r : row) (initial_usd : Q)
     (st : state) (snaps : list snapshot),
     Forall (λ r, ¬ (row_price r == 0)%Q) rows1 →
     run_rows policy (init_state initial_usd) rows1 = OK (st, snaps) →
     entry_invalid policy (toggle_signal (active_signals st) (row_type r)
                             (normalize_signal (row_signal r))) →
     length snaps = length rows1 ∧
     process_row policy st r = Raise ValueError ∧
     run_backtest policy (rows1 ++ r :: rows2) initial_usd = Raise ValueError) ∧
  (∀ (policy : policy_table) (rows : list row) (initial_usd : Q),
     Forall (λ r, ¬ (row_price r == 0)%Q) rows →
     Forall (entry_ok policy) (signal_trace ∅ rows) →
     ∃ snaps, run_backtest policy rows initial_usd = OK snaps ∧
              length snaps = length rows).
Proof.
  split.
  - intros policy rows1 rows2 r initial_usd st snaps Hz Hrun Hbad.
    pose proof (run_rows_well_formed _ _ _ _ _ Hz
                  (well_formed_init initial_usd) Hrun) as Hwf.
    pose proof (process_row_invalid policy st r Hwf Hbad) as Hrow.
    split; [by eapply run_rows_length |]. split; [done |].
    unfold run_backtest. rewrite run_rows_app, Hrun. simpl. by rewrite Hrow.
  - intros policy rows initial_usd Hz Hok.
    destruct (run_rows_total policy rows (init_state initial_usd))
      as (st & snaps & Hrun); [apply well_formed_init | done | done |].
    exists snaps. unfold run_backtest. rewrite Hrun. split; [done |].
    by eapply run_rows_length.
Qed.

Lemma invalid_position_raises_at_lookup_witness :
  run_backtest policy_bad
    ([Row 100 ENTER scenario_Y; Row 105 EXIT scenario_Y]
       ++ Row 110 ENTER scenario_X :: [Row 120 EXIT scenario_X])
    1000 = Raise ValueError.
Proof.
  edestruct (proj1 invalid_position_raises_at_lookup policy_bad
               [Row 100 ENTER scenario_Y; Row 105 EXIT scenario_Y]
               [Row 120 EXIT scenario_X] (Row 110 ENTER scenario_X) 1000%Q)
    as (_ & _ & Hrun); [| | | exact Hrun].
  - repeat constructor; simpl; intros H; vm_compute in H; discriminate.
  - vm_compute. reflexivity.
  - exists (position_cfg BOGUS), (VStr BOGUS). split_and!; try reflexivity.
    intros p [= <-]. rewrite elem_of_POSITIONS. intros [?|[?|[?|?]]]; discriminate.
Defined.

(** ** The ratio of a policy entry *)

Lemma lookup_target_same_positions (policy1 policy2 : policy_table) (st : state) :
  same_positions policy1 policy2 →
  lookup_target policy1 st = lookup_target policy2 st.
Proof.
  intros H. specialize (H (active_signals st)). unfold lookup_target.
  destruct (policy1 !! active_signals st) as [c1|],
    (policy2 !! active_signals st) as [c2|]; try done.
  destruct H as [[v Hv] Heq]. rewrite <- Heq, Hv.
  rewrite !decide_False; [done | |]; eapply cfg_lookup_size; eauto.
  by rewrite <- Heq.
Qed.

Lemma process_row_same_positions (policy1 policy2 : policy_table) (st : state) (r : row) :
  same_positions policy1 policy2 →
  process_row policy1 st r = process_row policy2 st r.
Proof.
  intros H. unfold process_row, before_switch, resolve_target.
  destruct (settle st (row_price r)) as [st1|e]; simpl; [| done].
  by rewrite (lookup_target_same_positions policy1 policy2).
Qed.

Lemma run_rows_same_positions (policy1 policy2 : policy_table) (rows : list row) :
  same_positions policy1 policy2 →
  ∀ st, run_rows policy1 st rows = run_rows policy2 st rows.
Proof.
  intros H. induction rows as [|r rows IH]; intros st; simpl; [done |].
  rewrite (process_row_same_positions policy1 policy2) by done.
  destruct (process_row policy2 st r) as [[st1 snap]|e]; simpl; [| done].
  by rewrite IH.
Qed.

(** C10: two policy tables that map every key to the same position, whatever
    their ratios, give the same result (the same table, or the same
    exception) for the same rows and initial capital; and a switch to a
    position other than flat puts the whole liquidated balance into BTC,
    leaving no USD. *)
Theorem ratio_is_never_read (policy1 policy2 : policy_table) (rows : list row)
    (initial_usd : Q) :
  same_positions policy1 policy2 →
  run_backtest policy1 rows initial_usd = run_backtest policy2 rows initial_usd ∧
  ∀ (st st' : state) (target rem : pystr) (price : Q),
    position st ∈ POSITIONS → target ∈ POSITIONS → target ≠ FLAT →
    switch_position st target price = OK (st', rem) →
    usd st' = 0%Q ∧ btc st' = (liquidated_usd st price / price)%Q.
Proof.
  intros H. split.
  - unfold run_backtest. by rewrite (run_rows_same_positions policy1 policy2).
  - intros st st' target rem price Hp Ht Hnf Hsw.
    destruct (Qeq_bool price 0) eqn:Ez.
    + exfalso. unfold switch_position, reopen in Hsw.
      unfold pydiv in Hsw. rewrite Ez in Hsw.
      repeat case_decide; simpl in Hsw; try done. position_cases.
    + rewrite switch_position_fields in Hsw; try done.
      * injection Hsw as <- _. simpl. by rewrite !decide_False.
      * intros E. apply Qeq_bool_iff in E. congruence.
Qed.

Lemma same_positions_half_full : same_positions policy_half policy_full.
Proof.
  intros key. unfold policy_half, policy_full.
  destruct (decide (key = ∅)) as [->|Hne].
  { rewrite !lookup_insert_eq. split; [by eexists | done]. }
  rewrite !lookup_insert_ne by done.
  destruct (decide (key = {[scenario_X]})) as [->|Hne'].
  { rewrite !lookup_singleton_eq. split; [by eexists | done]. }
  by rewrite !lookup_singleton_ne.
Qed.

Lemma ratio_is_never_read_witness :
  run_backtest policy_half
    [Row 100 ENTER scenario_X; Row 110 EXIT scenario_X] 1000 =
  run_backtest policy_full
    [Row 100 ENTER scenario_X; Row 110 EXIT scenario_X] 1000.
Proof.
  exact (proj1 (ratio_is_never_read policy_half policy_full
                  [Row 100 ENTER scenario_X; Row 110 EXIT scenario_X] 1000%Q
                  same_positions_half_full)).
Defined.

(** ** The two engines *)

Lemma normalize_signal_fixed (sig : pystr) :
  Fixed.normalize_signal sig = normalize_signal sig.
Proof. reflexivity. Qed.

Lemma target_of_valid (n : nat) : Fixed.target_of n ∈ POSITIONS.
Proof.
  unfold Fixed.target_of. rewrite elem_of_POSITIONS.
  repeat case_decide; auto.
Qed.

(** A set of canonical signals is one of the eight subsets of SIGNALS. *)
Lemma canonical_subsets (active : gset pystr) :
  active ⊆ SIGNALS →
  ∃ b1 b2 b3 : bool,
    active = (if b1 then {[tempeture_index]} else ∅)
               ∪ (if b2 then {[ma_120]} else ∅)
               ∪ (if b3 then {[ADX]} else ∅).
Proof.
  intros Hsub.
  exists (bool_decide (tempeture_index ∈ active)), (bool_decide (ma_120 ∈ active)),
    (bool_decide (ADX ∈ active)).
  apply set_eq. intros x. specialize (Hsub x). unfold SIGNALS in Hsub.
  rewrite !elem_of_union, !elem_of_singleton in Hsub.
  rewrite !elem_of_union. split.
  - intros Hx. destruct (Hsub Hx) as [[-> | ->] | ->].
    + left; left. rewrite bool_decide_eq_true_2 by done. by apply elem_of_singleton.
    + left; right. rewrite bool_decide_eq_true_2 by done. by apply elem_of_singleton.
    + right. rewrite bool_decide_eq_true_2 by done. by apply elem_of_singleton.
  - intros [[Hx | Hx] | Hx]; case_bool_decide; try (by apply elem_of_empty in Hx);
      apply elem_of_singleton in Hx; by subst x.
Qed.

(** On the sets of canonical signals DEFAULT_POLICY is the count-based rule
    of lines 70-75 of the other script. *)
Lemma default_policy_by_count (active : gset pystr) :
  active ⊆ SIGNALS →
  DEFAULT_POLICY !! active = Some (position_cfg (Fixed.target_of (size active))).
Proof.
  intros Hsub. destruct (canonical_subsets active Hsub) as (b1 & b2 & b3 & ->).
  destruct b1, b2, b3; vm_compute; reflexivity.
Qed.

Lemma resolve_target_default (st : state) :
  active_signals st ⊆ SIGNALS →
  resolve_target DEFAULT_POLICY st = OK (Fixed.target_of (size (active_signals st))).
Proof.
  intros Hsub. unfold resolve_target, lookup_target.
  rewrite default_policy_by_count by done. unfold position_cfg.
  rewrite map_size_singleton, lookup_singleton_eq. simpl.
  rewrite decide_True by apply target_of_valid. done.
Qed.

Lemma toggle_signal_canonical (active : gset pystr) (action_type sig : pystr) :
  active ⊆ SIGNALS → sig ∈ SIGNALS → toggle_signal active action_type sig ⊆ SIGNALS.
Proof.
  intros Ha Hs x. unfold toggle_signal. repeat case_decide.
  - rewrite elem_of_union, elem_of_singleton. intros [Hx | ->]; auto.
  - rewrite elem_of_difference. intros [Hx _]. auto.
  - auto.
Qed.

Lemma corresponds_init : corresponds Fixed.init_state (init_state 1000).
Proof.
  unfold corresponds; simpl. split_and!; done.
Qed.

Lemma settle_corresponds (f : Fixed.state) (s : state) (price : Q) :
  corresponds f s →
  ∃ b, settle s price = OK (set_btc s b) ∧
       Fixed.settle f price =
         OK {| Fixed.current_usd := usd s; Fixed.current_btc := b;
               Fixed.current_position := position s;
               Fixed.active_signals := active_signals s;
               Fixed.last_price := Fixed.last_price f |}.
Proof.
  intros (Hu & Hb & Hp & Ha & _ & _ & Hl & Hz).
  destruct f as [fu fb fp fa fl]; simpl in *; subst fu fb fp fa.
  unfold settle, Fixed.settle; simpl.
  destruct (decide (position s ∈ CONTRACTS)) as [Hc|Hc].
  - rewrite (Hl Hc).
    destruct (decide (position s = LEV1)), (last_price s) as [lp|] eqn:El;
      try destruct (decide (position s = LEV2));
      try rewrite !pydiv_ok by auto; simpl; eexists; split; try reflexivity;
      by destruct s.
  - rewrite elem_of_CONTRACTS in Hc. apply Decidable.not_or in Hc as [H1 H2].
    destruct (decide (position s = LEV1)); [done |].
    destruct (decide (position s = LEV2)); [done |].
    exists (btc s). destruct fl, (last_price s); split; try reflexivity;
      by destruct s.
Qed.

Lemma fixed_switch_fields (f : Fixed.state) (t : pystr) (n : nat) (price : Q) :
  Fixed.current_position f ∈ POSITIONS → t ∈ POSITIONS → ¬ (price == 0)%Q →
  ∃ rem,
    Fixed.reopen (Fixed.liquidate f price) t n price =
      OK ({| Fixed.current_usd :=
               if decide (t = FLAT) then
                 if decide (Fixed.current_position f = FLAT)
                 then Fixed.current_usd f else (Fixed.current_btc f * price)%Q
               else 0;
             Fixed.current_btc :=
               if decide (t = FLAT) then
                 if decide (Fixed.current_position f = FLAT)
                 then Fixed.current_btc f else 0
               else ((if decide (Fixed.current_position f = FLAT)
                      then Fixed.current_usd f
                      else (Fixed.current_btc f * price)%Q) / price)%Q;
             Fixed.current_position := Fixed.current_position f;
             Fixed.active_signals := Fixed.active_signals f;
             Fixed.last_price := Fixed.last_price f |}, rem).
Proof.
  intros Hp Ht Hz. destruct f as [fu fb fp fa fl]; simpl in *.
  unfold Fixed.reopen, Fixed.liquidate; simpl.
  position_cases; simpl; rewrite ?pydiv_ok by done; simpl;
    eexists; reflexivity.
Qed.

Lemma fixed_process_row_after_settle (f st1 : Fixed.state) (r : row) :
  Fixed.settle f (row_price r) = OK st1 →
  Fixed.process_row f r =
    let price := row_price r in
    let st3 := Fixed.update_signals (Fixed.update_last_price st1 price) (row_type r)
                 (normalize_signal (row_signal r)) in
    let n_signal := size (Fixed.active_signals st3) in
    let target_position := Fixed.target_of n_signal in
    if decide (target_position ≠ Fixed.current_position st3) then
      match Fixed.reopen (Fixed.liquidate st3 price) target_position n_signal price with
      | OK (st', remark) =>
          OK (Fixed.finish_switch st' target_position price,
              Fixed.emit (Fixed.finish_switch st' target_position price) price remark)
      | Raise e => Raise e
      end
    else OK (st3, Fixed.emit st3 price []).
Proof.
  intros Hs. unfold Fixed.process_row. rewrite Hs.
  unfold mbind, result_bind, mret, result_ret. cbv beta iota zeta.
  change (Fixed.normalize_signal (row_signal r))
    with (normalize_signal (row_signal r)).
  case_decide; [| reflexivity].
  by destruct (Fixed.reopen _ _ _ _) as [[? ?]|].
Qed.

Lemma process_row_after_settle (policy : policy_table) (s st1 : state) (r : row)
    (t : pystr) :
  settle s (row_price r) = OK st1 →
  resolve_target policy (prepared st1 r) = OK t →
  process_row policy s r =
    if decide (t ≠ position (prepared st1 r)) then
      match switch_position (prepared st1 r) t (row_price r) with
      | OK (st', remark) => OK (st', emit st' (row_price r) remark)
      | Raise e => Raise e
      end
    else OK (prepared st1 r, emit (prepared st1 r) (row_price r) []).
Proof.
  intros Hs Ht. unfold process_row, before_switch. rewrite Hs.
  unfold mbind, result_bind, mret, result_ret. cbv beta iota zeta.
  fold (prepared st1 r). rewrite Ht.
  case_decide; [| reflexivity].
  by destruct (switch_position _ _ _) as [[? ?]|].
Qed.

Lemma process_row_corresponds (f : Fixed.state) (s : state) (r : row) :
  corresponds f s → ¬ (row_price r == 0)%Q →
  normalize_signal (row_signal r) ∈ SIGNALS →
  ∃ f' s' snapf snaps,
    Fixed.process_row f r = OK (f', snapf) ∧
    process_row DEFAULT_POLICY s r = OK (s', snaps) ∧
    corresponds f' s' ∧ columns snapf = columns snaps.
Proof.
  intros Hc Hz Hsig.
  destruct (settle_corresponds f s (row_price r) Hc) as (b & Hs & Hfs).
  destruct Hc as (Hu & Hb & Hp & Ha & Hsub & Hpos & Hl & Hlz).
  pose proof (toggle_signal_canonical (active_signals s) (row_type r) _ Hsub Hsig)
    as Hsub'.
  assert (Hps : position s ∈ POSITIONS) by (rewrite Hpos; apply target_of_valid).
  rewrite (fixed_process_row_after_settle _ _ _ Hfs).
  rewrite (process_row_after_settle DEFAULT_POLICY s _ r _ Hs
             (resolve_target_default (prepared (set_btc s b) r) Hsub')).
  cbv zeta.
  change (Fixed.active_signals (Fixed.update_signals _ _ _))
    with (toggle_signal (active_signals s) (row_type r)
            (normalize_signal (row_signal r))).
  change (active_signals (prepared (set_btc s b) r))
    with (toggle_signal (active_signals s) (row_type r)
            (normalize_signal (row_signal r))).
  change (Fixed.current_position (Fixed.update_signals _ _ _)) with (position s).
  change (position (prepared (set_btc s b) r)) with (position s).
  set (active' := toggle_signal (active_signals s) (row_type r)
                    (normalize_signal (row_signal r))) in *.
  set (t := Fixed.target_of (size active')).
  assert (Ht : t ∈ POSITIONS) by apply target_of_valid.
  case_decide as Hne.
  - destruct (fixed_switch_fields
                (Fixed.update_signals
                   (Fixed.update_last_price
                      {| Fixed.current_usd := usd s; Fixed.current_btc := b;
                         Fixed.current_position := position s;
                         Fixed.active_signals := active_signals s;
                         Fixed.last_price := Fixed.last_price f |} (row_price r))
                   (row_type r) (normalize_signal (row_signal r)))
                t (size active') (row_price r)) as [rem Hrem]; try done.
    rewrite Hrem. rewrite switch_position_fields by done.
    eexists _, _, _, _. split; [reflexivity |]. split; [reflexivity |].
    split; [| reflexivity].
    unfold corresponds; simpl. split_and!; try done.
    + intros Hct. rewrite (decide_True (P := t ∈ CONTRACTS)) by done.
      rewrite decide_True; [done |].
      apply elem_of_CONTRACTS in Hct. rewrite !elem_of_cons. tauto.
    + intros lp. repeat case_decide; intros E; try discriminate E;
        by injection E as <-.
  - eexists _, _, _, _. split; [reflexivity |]. split; [reflexivity |].
    split; [| reflexivity].
    unfold corresponds; simpl. split_and!; try done.
    + intros Hct. rewrite (decide_True (P := position s ∈ CONTRACTS)) by done.
      rewrite decide_True; [done |].
      intros E. rewrite E in Hct. apply elem_of_CONTRACTS in Hct as [?|?]; discriminate.
    + intros lp. case_decide; intros E; try discriminate E;
        by injection E as <-.
Qed.

Lemma run_rows_correspond (rows : list row) :
  ∀ (f : Fixed.state) (s : state),
    corresponds f s →
    Forall (λ r, (0 < row_price r)%Q ∧ normalize_signal (row_signal r) ∈ SIGNALS)
      rows →
    ∃ f' s' snapsf snaps,
      Fixed.run_rows f rows = OK (f', snapsf) ∧
      run_rows DEFAULT_POLICY s rows = OK (s', snaps) ∧
      columns <$> snapsf = columns <$> snaps ∧
      length snaps = length rows.
Proof.
  induction rows as [|r rows IH]; intros f s Hc Hrows; simpl.
  - eexists _, _, _, _. done.
  - inversion_clear Hrows as [|? ? [Hprice Hsig] Hrest].
    destruct (process_row_corresponds f s r Hc (Qpos_nonzero _ Hprice) Hsig)
      as (f1 & s1 & snapf & snap & Hf & Hs & Hc1 & Hcols).
    destruct (IH f1 s1 Hc1 Hrest) as (f2 & s2 & snapsf & snaps & Hf2 & Hs2 & Heq & Hlen).
    rewrite Hf, Hs. simpl. rewrite Hf2, Hs2. simpl.
    eexists _, _, _, _. split; [reflexivity |]. split; [reflexivity |].
    split; [by rewrite !fmap_cons, Hcols, Heq | simpl; by rewrite Hlen].
Qed.

(** C6: for rows with strictly positive prices whose signals all normalize
    to one of tempeture_index, 120_ma, ADX, the script with the count-based
    policy and run_backtest with DEFAULT_POLICY and 1000 USD both return a
    table, with one row per input row, and the two tables have the same
    position, quantity, total value and active-signal columns. *)
Theorem fixed_policy_equivalence (rows : list row) :
  Forall (λ r, (0 < row_price r)%Q ∧ normalize_signal (row_signal r) ∈ SIGNALS) rows →
  ∃ snapsf snaps,
    Fixed.run rows = OK snapsf ∧
    run_backtest DEFAULT_POLICY rows 1000 = OK snaps ∧
    length snaps = length rows ∧
    columns <$> snapsf = columns <$> snaps.
Proof.
  intros Hrows.
  destruct (run_rows_correspond rows Fixed.init_state (init_state 1000)
              corresponds_init Hrows)
    as (f' & s' & snapsf & snaps & Hf & Hs & Heq & Hlen).
  exists snapsf, snaps. unfold Fixed.run, run_backtest. rewrite Hf, Hs. done.
Qed.

Lemma fixed_policy_equivalence_witness :
  ∃ snapsf snaps,
    Fixed.run rows_three = OK snapsf ∧
    run_backtest DEFAULT_POLICY rows_three 1000 = OK snaps ∧
    length snaps = 6%nat ∧
    columns <$> snapsf = columns <$> snaps ∧
    snap_position <$> snaps = [SPOT; LEV1; LEV2; LEV1; SPOT; FLAT].
Proof.
  destruct (fixed_policy_equivalence rows_three)
    as (snapsf & snaps & Hf & Hs & Hlen & Hcols).
  - unfold rows_three.
    repeat (constructor; [split; [reflexivity | vm_compute; reflexivity] |]).
    constructor.
  - exists snapsf, snaps.
    split; [exact Hf |]. split; [exact Hs |]. split; [exact Hlen |].
    split; [exact Hcols |].
    vm_compute in Hs. injection Hs as <-. reflexivity.
Defined.
